(** * ELL: sparse data vectors and the map compiler

    A shallow embedding of
    - [libraries/data/include/SparseDataVector.h]: the sparse vector, its
      [AppendElement], [PrefixLength] and its two iterators;
    - [libraries/data/include/StlIndexValueIterator.h]: the index-value
      iterators over STL containers;
    - [libraries/model/include/MapCompiler.h]: the port-to-variable registry
      and the variable allocation templates of the map compiler.

    [size_t] is a 64-bit unsigned integer, embedded in [N] with the wrap-around
    of [+ 1] written out.  [assert] is embedded as it behaves when assertions
    are enabled: a failed assertion stops the call. *)

From stdpp Require Import gmap list strings.
From Stdlib Require Import NArith ZArith QArith Lia.

Local Open Scope N_scope.

(** ** size_t *)

Definition SIZE_MAX : N := 2 ^ 64 - 1.

(** [x + 1] on a [size_t]. *)
Definition size_succ (x : N) : N := (x + 1) mod 2 ^ 64.

(** ** Element types

    [SparseDataVector] is a template over [ElementType]; values enter as
    [double] and are stored after a [static_cast].  The class collects the
    operations the header applies to the two types. *)

Class ElementCast (D E : Type) := {
  (** the literal [0.0] *)
  zero : D;
  (** [value == 0] *)
  is_zero : D -> bool;
  (** [static_cast<ElementType>(value)] *)
  to_element : D -> E;
  (** [static_cast<double>(element)] *)
  to_double : E -> D;
  (** [storedValue - value <= 1.0e-6 && value - storedValue <= 1.0e-6] *)
  within_tolerance : E -> D -> bool
}.

(** [double]: its finite values are taken as rationals; the infinities
    and NaN are values of their own. *)
Inductive double :=
| finite (q : Q)
| infinite (negative : bool)
| NaN.

(** [value == 0] on a [double]: an infinity is not zero and NaN equals
    nothing. *)
Definition double_is_zero (v : double) : bool :=
  match v with
  | finite q => Qeq_bool q 0
  | infinite _ | NaN => false
  end.

Definition Qabs_le (x y eps : Q) : bool :=
  Qle_bool (x - y) eps && Qle_bool (y - x) eps.

(** [x - y <= eps && y - x <= eps] on doubles.  With an infinity on
    either side one of the two differences is plus infinity or NaN, and
    with NaN both are NaN: the conjunction is false. *)
Definition double_within (x y : double) (eps : Q) : bool :=
  match x, y with
  | finite a, finite b => Qabs_le a b eps
  | _, _ => false
  end.

(** [short] is a 16-bit signed integer. *)
Definition wrap_short (z : Z) : Z := ((z + 32768) mod 65536 - 32768)%Z.

(** [static_cast<short>(value)]: truncation toward zero.  The language
    does not define the conversion of a value outside the range of
    [short], of an infinity or of NaN; here the truncated value wraps
    around to 16 bits, and the infinities and NaN give 0. *)
Definition double_to_short (v : double) : Z :=
  match v with
  | finite q => wrap_short (Z.quot (Qnum q) (Z.pos (Qden q)))
  | infinite _ | NaN => 0%Z
  end.

(** [ElementType = double]: the cast is the identity. *)
#[export] Instance double_element : ElementCast double double := {|
  zero := finite 0;
  is_zero := double_is_zero;
  to_element := fun v => v;
  to_double := fun e => e;
  within_tolerance := fun e v => double_within e v (1 # 1000000)
|}.

(** [ElementType = short] *)
#[export] Instance short_element : ElementCast double Z := {|
  zero := finite 0;
  is_zero := double_is_zero;
  to_element := double_to_short;
  to_double := fun e => finite (inject_Z e);
  within_tolerance := fun e v => double_within (finite (inject_Z e)) v (1 # 1000000)
|}.

Module Data.

(** ** The index list

    [IndexListType] is a template parameter ([utilities::CompressedIntegerList]
    in the aliases of the header).  It is instantiated here with a plain list
    of indices in append order; [Size], [Max], [Append] and the iterator are
    the operations [SparseDataVector.h] calls on it. *)

Definition IndexList := list N.

Definition Size (l : IndexList) : N := N.of_nat (length l).

(** The greatest index of the list. *)
Definition Max (l : IndexList) : N := fold_right N.max 0 l.

Definition Append (i : N) (l : IndexList) : IndexList := l ++ [i].

(** An iterator over the index list is the part that remains to be read. *)
Definition IndexIterator := list N.

Definition index_IsValid (it : IndexIterator) : bool :=
  match it with [] => false | _ :: _ => true end.

Definition index_Get (it : IndexIterator) : N := hd 0 it.

Definition index_Next (it : IndexIterator) : IndexIterator := tl it.

(** Strictly increasing lists of indices. *)
Inductive increasing : list N -> Prop :=
| increasing_nil : increasing []
| increasing_cons j l : Forall (fun k => j < k) l -> increasing l -> increasing (j :: l).

Record IndexValue (D : Type) := mkIndexValue { index : N; value : D }.
Arguments mkIndexValue {D} _ _.
Arguments index {D} _.
Arguments value {D} _.

Section SparseDataVector.

Context {D E : Type} `{ElementCast D E}.

Record SparseDataVector := mkSparse {
  _indexList : IndexList;
  _values : list E
}.

(** The class invariant: the indices increase strictly and every index has
    its value. *)
Definition well_formed (v : SparseDataVector) : Prop :=
  increasing (_indexList v) /\ length (_indexList v) = length (_values v).

(** [SparseDataVector() = default] *)
Definition empty : SparseDataVector := mkSparse [] [].

Inductive InputExceptionErrors := indexOutOfRange.

(** How a call of [AppendElement] ends; each case carries the vector the
    call leaves behind. *)
Inductive Outcome :=
| Returned (v : SparseDataVector)
| Thrown (e : InputExceptionErrors) (v : SparseDataVector)
| AssertionFailed (v : SparseDataVector).

Definition vector_of (o : Outcome) : SparseDataVector :=
  match o with
  | Returned v | Thrown _ v | AssertionFailed v => v
  end.

Definition AppendElement (index : N) (value : D) (v : SparseDataVector) : Outcome :=
  if is_zero value then Returned v
  else
    let storedValue : E := to_element value in
    if negb (within_tolerance storedValue value) then AssertionFailed v
    else if (0 <? Size (_indexList v)) && (index <=? Max (_indexList v))
    then Thrown indexOutOfRange v
    else Returned (mkSparse (Append index (_indexList v)) (_values v ++ [storedValue])).

Definition PrefixLength (v : SparseDataVector) : N :=
  if Size (_indexList v) =? 0 then 0
  else size_succ (Max (_indexList v)).

(** *** The [IterationPolicy::all] iterator *)

Record AllIterator := mkAllIterator {
  _indexIterator : IndexIterator;
  _valueIterator : list E;
  _iteratorIndex : N;
  _size : N;
  _index : N
}.

(** The constructor; [_index] starts at 0. *)
Definition make_AllIterator (indexIterator : IndexIterator)
    (valueIterator : list E) (size : N) : AllIterator :=
  mkAllIterator indexIterator valueIterator
    (if index_IsValid indexIterator then index_Get indexIterator else size)
    size 0.

Definition GetIterator_all (size : N) (v : SparseDataVector) : AllIterator :=
  make_AllIterator (_indexList v) (_values v) size.

Definition IsValid (it : AllIterator) : bool := _index it <? _size it.

Definition Next (it : AllIterator) : AllIterator :=
  if _index it =? _iteratorIndex it then
    let indexIterator := index_Next (_indexIterator it) in
    let valueIterator := tl (_valueIterator it) in
    let iteratorIndex :=
      if index_IsValid indexIterator && (index_Get indexIterator <? _size it)
      then index_Get indexIterator else _size it in
    mkAllIterator indexIterator valueIterator iteratorIndex (_size it)
      (size_succ (_index it))
  else
    mkAllIterator (_indexIterator it) (_valueIterator it) (_iteratorIndex it)
      (_size it) (size_succ (_index it)).

(** [*_valueIterator]; reading past the end has no defined value in the
    source and is given [0] here. *)
Definition deref (valueIterator : list E) : D :=
  match valueIterator with
  | e :: _ => to_double e
  | [] => zero
  end.

Definition Get (it : AllIterator) : IndexValue D :=
  if _index it =? _iteratorIndex it
  then mkIndexValue (_index it) (deref (_valueIterator it))
  else mkIndexValue (_index it) zero.

(** The client loop [while (it.IsValid()) { use(it.Get()); it.Next(); }],
    run for at most [fuel] rounds; it returns the iterates and the iterator
    it stops at. *)
Fixpoint traverse (fuel : nat) (it : AllIterator) : list (IndexValue D) * AllIterator :=
  match fuel with
  | O => ([], it)
  | S fuel' =>
      if IsValid it
      then let '(out, last) := traverse fuel' (Next it) in (Get it :: out, last)
      else ([], it)
  end.

(** *** Histories of appends *)

(** A sequence of [AppendElement] calls; a call that throws or fails leaves
    the vector as it was and the next call goes on from there. *)
Definition appends (ops : list (N * D)) (v : SparseDataVector) : SparseDataVector :=
  fold_left (fun v op => vector_of (AppendElement op.1 op.2 v)) ops v.

(** The index of the last call that stored a nonzero element. *)
Fixpoint last_appended (ops : list (N * D)) (v : SparseDataVector)
    (last : option N) : option N :=
  match ops with
  | [] => last
  | (i, x) :: ops' =>
      match AppendElement i x v with
      | Returned v' =>
          last_appended ops' v' (if is_zero x then last else Some i)
      | Thrown _ v' | AssertionFailed v' => last_appended ops' v' last
      end
  end.

(** What [last_appended] remembers, against the index list. *)
Definition remembers (v : SparseDataVector) (last : option N) : Prop :=
  match last with
  | None => _indexList v = []
  | Some i => _indexList v <> [] /\ Max (_indexList v) = i
  end.

(** *** What the vector stores, read off its two lists *)

Fixpoint stored (ixs : list N) (vs : list E) (i : N) : option E :=
  match ixs, vs with
  | j :: ixs', e :: vs' => if j =? i then Some e else stored ixs' vs' i
  | _, _ => None
  end.

(** The value at index [i]: the stored one, or [0.0]. *)
Definition value_at (v : SparseDataVector) (i : N) : D :=
  match stored (_indexList v) (_values v) i with
  | Some e => to_double e
  | None => zero
  end.

(** The indices [k, k + 1, ..., k + count - 1]. *)
Fixpoint range (k : N) (count : nat) : list N :=
  match count with
  | O => []
  | S count' => k :: range (k + 1) count'
  end.

(** The iterate the [all] policy owes at index [i], read off the lists
    [ixs] and [vs]. *)
Definition iterate_at (ixs : list N) (vs : list E) (i : N) : IndexValue D :=
  mkIndexValue i (match stored ixs vs i with
                  | Some e => to_double e
                  | None => zero
                  end).

(** The state of an [all] iterator that stands at index [k]: the two
    underlying iterators have advanced in step, what remains of the index
    list lies at [k] or beyond, and [_iteratorIndex] is the next stored
    index below [_size], or [_size] (at construction: the next stored
    index, whatever it is). *)
Definition iterating (k : N) (it : AllIterator) : Prop :=
  _index it = k
  /\ length (_indexIterator it) = length (_valueIterator it)
  /\ increasing (_indexIterator it)
  /\ Forall (fun j => k <= j) (_indexIterator it)
  /\ match _indexIterator it with
     | [] => _iteratorIndex it = _size it
     | j :: _ => _iteratorIndex it = j \/ (_size it <= j /\ _iteratorIndex it = _size it)
     end.

(** The three cases of [AppendElement] as its description lists them:
    nothing for a zero, an exception for an index that is not beyond the
    largest one, an append otherwise. *)
Definition AppendElement_described (index : N) (value : D)
    (v : SparseDataVector) : Outcome :=
  if is_zero value then Returned v
  else if negb (Size (_indexList v) =? 0) && (index <=? Max (_indexList v))
  then Thrown indexOutOfRange v
  else Returned (mkSparse (_indexList v ++ [index]) (_values v ++ [to_element value])).

End SparseDataVector.

Arguments SparseDataVector : clear implicits.
Arguments Outcome : clear implicits.
Arguments AllIterator : clear implicits.

End Data.

Module Model.

(** ** The emitters the compiler talks to

    [emitters/include/Variable.h], [EmitterTypes.h] and
    [CompilableNodeUtilities.h] are not part of the sources at hand: the port
    and variable types, the conversion between them and the type of the
    initial values are parameters of the development. *)

Class Emitters := {
  PortType : Type;
  VariableType : Type;
  (** the template parameter of the allocation templates *)
  ValueType : Type;
  PortTypeToVariableType : PortType -> VariableType;
  (** [initialValue == 0] *)
  equals_zero : ValueType -> bool;
  (** the answer of the concrete compiler to [TryMergeNodeRegion] *)
  merge_policy : positive -> bool
}.

(** Modelled from the spec: [emitters::VariableScope], of which
    [MapCompiler.h] names [global] only.  A variable is global or local;
    [input] and [output] are the scopes of the function arguments. *)
Inductive VariableScope := global | local | input | output.

(** [enum class ArgType] *)
Inductive ArgType := ArgType_input | ArgType_output.

(** Modelled from the spec: the kinds of fault the compiler itself
    raises. *)
Inductive Fault :=
| MalformedPortFault
| DuplicateBindingFault
| UnbalancedScopeFault
| ConfigurationFault.

(** What a compilation leaves to observe: the hooks that have run and the
    regions that were opened and merged. *)
Inductive Event :=
| OnBeginCompileNode (node : positive)
| OnEndCompileNode (node : positive)
| OnEndCompileModel
| RegionOpened (node : positive)
| RegionMerged (node : positive).

(** [emitters::Variable*]: the address of a variable object of the emitter. *)
Abbreviation VariablePtr := N.

(** One scope frame: [std::unordered_map<const Port*, emitters::Variable*>]. *)
Abbreviation Frame := (gmap positive VariablePtr).

Section MapCompiler.

Context `{Emitters}.

(** An output port: its identity is its address, which is the key of the
    port-to-variable maps ([const Port*]). *)
Record OutputPortBase := mkPort {
  address : positive;
  GetType : PortType;
  Size : N
}.

(** The two overloads of [AddVectorVariable] the compiler calls. *)
Inductive EmitterVariable :=
| VectorVariable (scope : VariableScope) (type : VariableType) (size : N)
| InitializedVectorVariable (scope : VariableScope) (size : N) (init : ValueType).

(** Modelled from the spec: the module emitter, which [MapCompiler.h]
    reaches through [GetModuleEmitter()].  It holds the variables it has
    created, in creation order (the [k]-th one lives at [heap_base + k]),
    those registered for allocation, and the functions it has finalized. *)
Record ModuleEmitter := mkEmitter {
  heap_base : N;
  variables : list EmitterVariable;
  allocated : list VariablePtr;
  functions : list string
}.

(** The compiler: [_portToVarMaps] is the stack of scope frames, innermost
    first; the frame of the compilation pass itself is always there, the
    frames opened by [PushScope] come on top of it. *)
Record MapCompiler := mkCompiler {
  emitter : ModuleEmitter;
  _portToVarMaps : Frame * list Frame;
  regions : list (list positive);
  events : list Event
}.

Definition fresh (base : N) : MapCompiler :=
  mkCompiler (mkEmitter base [] [] []) (∅, []) [] [].

(** *** Calls that may raise a fault

    A call either returns a value and the compiler it leaves, or raises a
    fault; nothing is rolled back, so the fault carries the compiler as it
    was when the fault was raised. *)

Inductive Result (A : Type) :=
| Ok (a : A) (c : MapCompiler)
| Raised (f : Fault) (c : MapCompiler).
Arguments Ok {A} _ _.
Arguments Raised {A} _ _.

Definition Compile (A : Type) := MapCompiler -> Result A.

Definition ret {A} (a : A) : Compile A := fun c => Ok a c.

Definition bind {A B} (m : Compile A) (k : A -> Compile B) : Compile B :=
  fun c => match m c with
           | Ok a c' => k a c'
           | Raised f c' => Raised f c'
           end.

Definition raise {A} (f : Fault) : Compile A := fun c => Raised f c.

Definition compiler_of {A} (r : Result A) : MapCompiler :=
  match r with Ok _ c | Raised _ c => c end.

End MapCompiler.

Arguments Ok {_ A} _ _.
Arguments Raised {_ A} _ _.

Declare Scope compile_scope.
Delimit Scope compile_scope with compile.
Notation "x <- m ;; k" := (bind m (fun x => k))
  (at level 100, m at next level, right associativity) : compile_scope.
Notation "m ;;; k" := (bind m (fun _ => k))
  (at level 100, right associativity) : compile_scope.

Section Registry.

Context `{Emitters}.
Local Open Scope compile_scope.

(** [assert(cond)], raising [f] when the condition does not hold. *)
Definition assert (cond : bool) (f : Fault) : Compile unit :=
  if cond then ret tt else raise f.

(** *** The emitter's side *)

Definition next_variable (e : ModuleEmitter) : VariablePtr :=
  heap_base e + N.of_nat (length (variables e)).

(** [Variables().AddVectorVariable(...)]: the emitter creates the variable
    and hands out its address. *)
Definition AddVariable (var : EmitterVariable) : Compile VariablePtr :=
  fun c =>
    let e := emitter c in
    Ok (next_variable e)
       (mkCompiler (mkEmitter (heap_base e) (variables e ++ [var]) (allocated e) (functions e))
                   (_portToVarMaps c) (regions c) (events c)).

Definition AddVectorVariable (scope : VariableScope) (type : VariableType)
    (size : N) : Compile VariablePtr :=
  AddVariable (VectorVariable scope type size).

Definition AddVectorVariable_init (scope : VariableScope) (size : N)
    (init : ValueType) : Compile VariablePtr :=
  AddVariable (InitializedVectorVariable scope size init).

(** [pModuleEmitter->AllocateVariable]: the variable is registered for
    allocation. *)
Definition AllocateVariable (pVar : VariablePtr) : Compile unit :=
  fun c =>
    let e := emitter c in
    Ok tt (mkCompiler (mkEmitter (heap_base e) (variables e) (allocated e ++ [pVar]) (functions e))
                      (_portToVarMaps c) (regions c) (events c)).

(** *** The scoped registry *)

Fixpoint lookup_frames (key : positive) (frames : list Frame) : option VariablePtr :=
  match frames with
  | [] => None
  | frame :: outer =>
      match frame !! key with
      | Some pVar => Some pVar
      | None => lookup_frames key outer
      end
  end.

(** Modelled from the spec: the body of [GetVariableForPort], declared in
    [MapCompiler.h] and defined outside it.  It returns the bound variable,
    searching all open frames from innermost to outermost, or a not-found
    signal ([None], the null pointer) if none exists; it has no side
    effect. *)
Definition GetVariableForPort (port : OutputPortBase) : Compile (option VariablePtr) :=
  fun c =>
    Ok (lookup_frames (address port) ((_portToVarMaps c).1 :: (_portToVarMaps c).2)) c.

(** Modelled from the spec: the body of [SetVariableForPort], declared in
    [MapCompiler.h] and defined outside it.  It binds the variable to the
    port in the current (topmost) frame; a port already bound in that frame
    is a duplicate-binding fault, a binding in an enclosing frame is
    shadowed. *)
Definition SetVariableForPort (port : OutputPortBase) (pVar : VariablePtr) : Compile unit :=
  fun c =>
    let '(top, outer) := _portToVarMaps c in
    match top !! address port with
    | Some _ => Raised DuplicateBindingFault c
    | None =>
        Ok tt (mkCompiler (emitter c) (<[address port := pVar]> top, outer)
                          (regions c) (events c))
    end.

(** Modelled from the spec: the body of [PushScope], declared in
    [MapCompiler.h] and defined outside it.  It opens a frame. *)
Definition PushScope : Compile unit :=
  fun c =>
    let '(top, outer) := _portToVarMaps c in
    Ok tt (mkCompiler (emitter c) (∅, top :: outer) (regions c) (events c)).

(** Modelled from the spec: the body of [PopScope], declared in
    [MapCompiler.h] and defined outside it.  It closes the innermost frame;
    a pop with no matching push is an unbalanced-scope fault. *)
Definition PopScope : Compile unit :=
  fun c =>
    match _portToVarMaps c with
    | (_, []) => Raised UnbalancedScopeFault c
    | (_, top :: outer) =>
        Ok tt (mkCompiler (emitter c) (top, outer) (regions c) (events c))
    end.

(** *** Allocation of port variables *)

(** The template [AllocatePortVariable(port, initialValue)].
    [GetModuleEmitter()] hands out the emitter of the compiler, which is
    part of the state here. *)
Definition AllocatePortVariable (port : OutputPortBase) (initialValue : ValueType)
    : Compile VariablePtr :=
  assert (negb (Size port =? 0)) MalformedPortFault ;;;
  let varType := PortTypeToVariableType (GetType port) in
  pVar <- (if equals_zero initialValue
           then AddVectorVariable global varType (Size port)
           else AddVectorVariable_init global (Size port) initialValue) ;;
  AllocateVariable pVar ;;;
  SetVariableForPort port pVar ;;;
  ret pVar.

(** Modelled from the spec: the body of the overload
    [AllocatePortVariable(port)], declared in [MapCompiler.h] and defined
    outside it.  It requests a variable from the backend sized and typed to
    match the port, binds it via [SetVariableForPort] and returns it; it
    fails with the malformed-port fault if the port has no element. *)
Definition AllocatePortVariable_port (port : OutputPortBase) : Compile VariablePtr :=
  assert (negb (Size port =? 0)) MalformedPortFault ;;;
  pVar <- AddVectorVariable global (PortTypeToVariableType (GetType port)) (Size port) ;;
  AllocateVariable pVar ;;;
  SetVariableForPort port pVar ;;;
  ret pVar.

(** The template [GetOrAllocatePortVariable(port, initialValue)].  The
    allocation goes through the overload without an initial value.  The
    final [assert(pVar != nullptr)] holds by construction: both branches
    yield the address of a variable. *)
Definition GetOrAllocatePortVariable (port : OutputPortBase) (initialValue : ValueType)
    : Compile VariablePtr :=
  found <- GetVariableForPort port ;;
  match found with
  | Some pVar => ret pVar
  | None => AllocatePortVariable_port port
  end.

(** Modelled from the spec: the body of the overload
    [GetOrAllocatePortVariable(port)], declared in [MapCompiler.h] and
    defined outside it.  It returns the existing binding if found anywhere
    in the stack, else allocates in the current frame. *)
Definition GetOrAllocatePortVariable_port (port : OutputPortBase) : Compile VariablePtr :=
  found <- GetVariableForPort port ;;
  match found with
  | Some pVar => ret pVar
  | None => AllocatePortVariable_port port
  end.

End Registry.

Section Orchestration.

Context `{Emitters}.
Local Open Scope compile_scope.

(** Modelled from the spec: a node of the graph, a class that
    [MapCompiler.h] only declares.  It has the output ports its input ports
    reference, its own output ports, and the initial value its lowering
    asks for, if any. *)
Record Node := mkNode {
  node_id : positive;
  node_inputs : list OutputPortBase;
  node_outputs : list OutputPortBase;
  node_initial : option ValueType
}.

(** Modelled from the spec: a map, a class that [MapCompiler.h] only
    declares.  It has the declared input and output port bindings, in
    order, and the nodes of the underlying graph in the graph's own
    dependency-respecting enumeration. *)
Record Map := mkMap {
  map_inputs : list (string * OutputPortBase);
  map_outputs : list (string * OutputPortBase);
  map_nodes : list Node
}.

Fixpoint for_each {A} (f : A -> Compile unit) (l : list A) : Compile unit :=
  match l with
  | [] => ret tt
  | a :: l' => f a ;;; for_each f l'
  end.

Definition record (e : Event) : Compile unit :=
  fun c => Ok tt (mkCompiler (emitter c) (_portToVarMaps c) (regions c) (events c ++ [e])).

(** Modelled from the spec: a concrete [NewNodeRegion], which is pure
    virtual in [MapCompiler.h].  It begins a fresh region attributed to the
    node and always succeeds. *)
Definition NewNodeRegion (node : Node) : Compile unit :=
  fun c =>
    Ok tt (mkCompiler (emitter c) (_portToVarMaps c) ([node_id node] :: regions c)
                      (events c ++ [RegionOpened (node_id node)])).

(** Modelled from the spec: a concrete [TryMergeNodeRegion], which is pure
    virtual in [MapCompiler.h].  When the policy of the backend allows it,
    the region of the node is folded into the immediately preceding one;
    the call returns whether the merge happened. *)
Definition TryMergeNodeRegion (node : Node) : Compile bool :=
  fun c =>
    match merge_policy (node_id node), regions c with
    | true, r :: prev :: rest =>
        Ok true (mkCompiler (emitter c) (_portToVarMaps c) ((prev ++ r) :: rest)
                            (events c ++ [RegionMerged (node_id node)]))
    | _, _ => Ok false c
    end.

(** Modelled from the spec: the lowering of a node, which belongs to the
    node classes and is not part of [MapCompiler.h].  It calls
    [GetOrAllocatePortVariable] for the ports the node reads and for the
    ports it writes, the latter with the node's initial value if it has
    one. *)
Definition lower (node : Node) : Compile unit :=
  for_each (fun port => GetOrAllocatePortVariable_port port ;;; ret tt) (node_inputs node) ;;;
  for_each (fun port =>
              match node_initial node with
              | Some initialValue => GetOrAllocatePortVariable port initialValue ;;; ret tt
              | None => GetOrAllocatePortVariable_port port ;;; ret tt
              end) (node_outputs node).

(** Modelled from the spec: the body of [AllocatePortFunctionArgument],
    declared in [MapCompiler.h] and defined outside it.  It requests a
    function-argument variable sized and typed to match the port and binds
    it to the port. *)
Definition AllocatePortFunctionArgument (port : OutputPortBase) (argType : ArgType)
    : Compile VariablePtr :=
  assert (negb (Size port =? 0)) MalformedPortFault ;;;
  pVar <- AddVectorVariable (match argType with ArgType_input => input | ArgType_output => output end)
            (PortTypeToVariableType (GetType port)) (Size port) ;;
  SetVariableForPort port pVar ;;;
  ret pVar.

(** Modelled from the spec: the body of [AllocateMapFunctionArguments],
    declared in [MapCompiler.h] and defined outside it.  It allocates an
    argument variable for every declared input port and every declared
    output port, and yields the ordered (name, type) descriptors. *)
Definition AllocateMapFunctionArguments (map : Map) : Compile (list (string * VariableType)) :=
  for_each (fun b => AllocatePortFunctionArgument b.2 ArgType_input ;;; ret tt) (map_inputs map) ;;;
  for_each (fun b => AllocatePortFunctionArgument b.2 ArgType_output ;;; ret tt) (map_outputs map) ;;;
  ret (List.map (fun b => (b.1, PortTypeToVariableType (GetType b.2)))
         (map_inputs map ++ map_outputs map)).

(** Modelled from the spec: one round of the traversal (step 4 of the
    algorithm of [CompileMap]). *)
Definition CompileNode (node : Node) : Compile unit :=
  record (OnBeginCompileNode (node_id node)) ;;;
  NewNodeRegion node ;;;
  TryMergeNodeRegion node ;;;
  lower node ;;;
  record (OnEndCompileNode (node_id node)).

(** Modelled from the spec: the body of [CompileNodes], declared in
    [MapCompiler.h] and defined outside it.  The nodes are visited in the
    order the graph enumerates them. *)
Definition CompileNodes (nodes : list Node) : Compile unit :=
  for_each CompileNode nodes.

(** Modelled from the spec: the emitter finalizes a function once all nodes
    have been emitted. *)
Definition FinalizeFunction (functionName : string) : Compile unit :=
  fun c =>
    let e := emitter c in
    Ok tt (mkCompiler (mkEmitter (heap_base e) (variables e) (allocated e)
                                 (functions e ++ [functionName]))
                      (_portToVarMaps c) (regions c) (events c)).

(** Modelled from the spec: frames that remain open at the end of a
    compilation pass are an unbalanced-scope fault. *)
Definition CheckScopesClosed : Compile unit :=
  fun c =>
    match (_portToVarMaps c).2 with
    | [] => Ok tt c
    | _ :: _ => Raised UnbalancedScopeFault c
    end.

(** Modelled from the spec: whether the map declares at least one input
    and one output port binding. *)
Definition has_bindings (map : Map) : bool :=
  match map_inputs map, map_outputs map with
  | _ :: _, _ :: _ => true
  | _, _ => false
  end.

(** Modelled from the spec: the body of [CompileMap], declared in
    [MapCompiler.h] and defined outside it.  It validates that the map
    declares at least one input and one output binding, binds the function
    arguments, traverses the nodes, runs [OnEndCompileModel] and finalizes
    the function; any fault aborts the call. *)
Definition CompileMap (map : Map) (functionName : string) : Compile unit :=
  assert (has_bindings map) ConfigurationFault ;;;
  AllocateMapFunctionArguments map ;;;
  CompileNodes (map_nodes map) ;;;
  record OnEndCompileModel ;;;
  CheckScopesClosed ;;;
  FinalizeFunction functionName.

(** *** What a run leaves to observe *)

(** The node-visitation sequence: the nodes whose compilation was begun. *)
Definition visited (c : MapCompiler) : list positive :=
  omap (fun e => match e with OnBeginCompileNode n => Some n | _ => None end) (events c).

(** The number of variables the emitter has created. *)
Definition variable_count (c : MapCompiler) : nat := length (variables (emitter c)).

(** Whether a call returned or raised, and which fault. *)
Definition verdict {A} (r : Result A) : option Fault :=
  match r with Ok _ _ => None | Raised f _ => Some f end.

(** A call keeps the finalized functions of the emitter. *)
Definition keeps_functions {A} (m : Compile A) : Prop :=
  forall c, functions (emitter (compiler_of (m c))) = functions (emitter c).

(** A call visits the nodes [l], in this order: it adds an initial segment
    of [l] to the visitation sequence, and all of [l] when it returns. *)
Definition visits {A} (l : list positive) (m : Compile A) : Prop :=
  forall c, exists l',
    visited (compiler_of (m c)) = visited c ++ l'
    /\ (exists rest, l = l' ++ rest)
    /\ (verdict (m c) = None -> l' = l).

(** *** The ports a compilation asks variables for *)

Definition ports_set (ports : list OutputPortBase) : gset positive :=
  list_to_set (address <$> ports).

Fixpoint nodes_ports (nodes : list Node) : gset positive :=
  match nodes with
  | [] => ∅
  | node :: nodes' =>
      (ports_set (node_inputs node) ∪ ports_set (node_outputs node)) ∪ nodes_ports nodes'
  end.

(** The ports of a map: those it declares and those its nodes read and
    write. *)
Definition map_ports (map : Map) : gset positive :=
  (ports_set (map_inputs map).*2 ∪ ports_set (map_outputs map).*2)
  ∪ nodes_ports (map_nodes map).

(** The ports bound in the current frame. *)
Definition bound_ports (c : MapCompiler) : gset positive := dom (_portToVarMaps c).1.

(** A call binds the ports [S]: run with no scope open, a call that
    returns leaves no scope open, has bound [S] in addition, and has had
    the emitter create one variable per port it newly bound. *)
Definition binds {A} (S : gset positive) (m : Compile A) : Prop :=
  forall c, (_portToVarMaps c).2 = [] ->
    match m c with
    | Ok _ c' =>
        (_portToVarMaps c').2 = []
        /\ bound_ports c' = bound_ports c ∪ S
        /\ (variable_count c' + size (bound_ports c)
            = variable_count c + size (bound_ports c'))%nat
    | Raised _ _ => True
    end.

(** *** The first binding of a port in a stack of frames *)

(** [found] is what a search from the innermost frame outward owes: the
    binding of the first frame that binds [key], or nothing when no frame
    binds it. *)
Definition first_binding (key : positive) (frames : list Frame)
    (found : option VariablePtr) : Prop :=
  match found with
  | Some pVar =>
      exists (i : nat) (frame : Frame),
        frames !! i = Some frame /\ frame !! key = Some pVar
        /\ forall (j : nat) (inner : Frame),
             (j < i)%nat -> frames !! j = Some inner -> inner !! key = None
  | None => forall frame : Frame, frame ∈ frames -> frame !! key = None
  end.

(** The open frames of a compiler, innermost first. *)
Definition frames_of (c : MapCompiler) : list Frame :=
  (_portToVarMaps c).1 :: (_portToVarMaps c).2.

(** *** Moving the variables of the emitter

    Where the emitter places its variable objects differs from one run to
    the next.  [shift d] is the compiler that results when every variable
    lives [d] addresses further on. *)

Definition shift_emitter (d : N) (e : ModuleEmitter) : ModuleEmitter :=
  mkEmitter (heap_base e + d) (variables e) (List.map (N.add d) (allocated e)) (functions e).

Definition shift_frame (d : N) (frame : Frame) : Frame := N.add d <$> frame.

Definition shift (d : N) (c : MapCompiler) : MapCompiler :=
  mkCompiler (shift_emitter d (emitter c))
             (shift_frame d (_portToVarMaps c).1, List.map (shift_frame d) (_portToVarMaps c).2)
             (regions c) (events c).

Definition shift_result {A} (fA : A -> A) (d : N) (r : Result A) : Result A :=
  match r with
  | Ok a c => Ok (fA a) (shift d c)
  | Raised f c => Raised f (shift d c)
  end.

(** [m'] does on the shifted compiler what [m] does on the original one. *)
Definition shifted {A} (fA : A -> A) (d : N) (m m' : Compile A) : Prop :=
  forall c, m' (shift d c) = shift_result fA d (m c).

End Orchestration.

(** *** A concrete setting for the examples *)

Inductive SamplePortType := real | integer.

(** Ports and variables share their types, initial values are integers and
    the backend merges the region of every node but node 1. *)
Definition sample_emitters : Emitters := {|
  PortType := SamplePortType;
  VariableType := SamplePortType;
  ValueType := Z;
  PortTypeToVariableType := fun t => t;
  equals_zero := fun v => Z.eqb v 0;
  merge_policy := fun n => negb (Pos.eqb n 1)
|}.

Section Samples.

#[local] Existing Instance sample_emitters.

(** A map over the chain A -> B -> C. *)
Definition portA : OutputPortBase := mkPort 1 real 1.
Definition portB : OutputPortBase := mkPort 2 real 1.
Definition portC : OutputPortBase := mkPort 3 real 1.
Definition chain : Map :=
  mkMap [("input"%string, portA)] [("output"%string, portC)]
        [mkNode 1 [] [portA] None; mkNode 2 [portA] [portB] None;
         mkNode 3 [portB] [portC] None].

(** The same chain with a node B whose output port has no element. *)
Definition emptyB : OutputPortBase := mkPort 2 real 0.
Definition broken_chain : Map :=
  mkMap [("input"%string, portA)] [("output"%string, portC)]
        [mkNode 1 [] [portA] None; mkNode 2 [portA] [emptyB] None;
         mkNode 3 [emptyB] [portC] None].

End Samples.

End Model.

(** ** The iterator of the sparse vector that skips zeros

    [SparseDataVectorIterator<IterationPolicy::skipZeros, ...>] and the two
    [GetIterator] members of [SparseDataVector]. *)

Module SparseSkipZeros.

Section Iterator.

Context {D E : Type} `{ElementCast D E}.

Record SkipZerosIterator := mkSkipZerosIterator {
  _indexIterator : Data.IndexIterator;
  _valueIterator : list E;
  _size : N
}.

(** [GetIterator<IterationPolicy::skipZeros>(size)] *)
Definition GetIterator_skipZeros (size : N) (v : Data.SparseDataVector E)
    : SkipZerosIterator :=
  mkSkipZerosIterator (Data._indexList v) (Data._values v) size.

Definition IsValid (it : SkipZerosIterator) : bool :=
  Data.index_IsValid (_indexIterator it)
  && (Data.index_Get (_indexIterator it) <? _size it).

Definition Next (it : SkipZerosIterator) : SkipZerosIterator :=
  mkSkipZerosIterator (Data.index_Next (_indexIterator it)) (tl (_valueIterator it))
    (_size it).

Definition Get (it : SkipZerosIterator) : Data.IndexValue D :=
  Data.mkIndexValue (Data.index_Get (_indexIterator it)) (Data.deref (_valueIterator it)).

(** The client loop [while (it.IsValid()) { use(it.Get()); it.Next(); }],
    run for at most [fuel] rounds. *)
Fixpoint traverse (fuel : nat) (it : SkipZerosIterator)
    : list (Data.IndexValue D) * SkipZerosIterator :=
  match fuel with
  | O => ([], it)
  | S fuel' =>
      if IsValid it
      then let '(out, last) := traverse fuel' (Next it) in (Get it :: out, last)
      else ([], it)
  end.

(** [GetIterator<policy>()]: the prefix is [PrefixLength()]. *)
Definition GetIterator_skipZeros_default (v : Data.SparseDataVector E)
    : SkipZerosIterator :=
  GetIterator_skipZeros (Data.PrefixLength v) v.

Definition GetIterator_all_default (v : Data.SparseDataVector E)
    : Data.AllIterator E :=
  Data.GetIterator_all (Data.PrefixLength v) v.

(** The stored elements as (index, value) pairs, in the order of storage. *)
Definition elements (v : Data.SparseDataVector E) : list (N * E) :=
  zip (Data._indexList v) (Data._values v).

(** The iterate that carries a stored element. *)
Definition iterate_of (p : N * E) : Data.IndexValue D :=
  Data.mkIndexValue p.1 (to_double p.2).

(** An element that [AppendElement] takes back as it is: it comes from a nonzero value that passed
    the assertion on the conversion and converts back to that value. *)
Definition appendable (e : E) : Prop :=
  is_zero (to_double e) = false
  /\ within_tolerance (to_element (to_double e)) (to_double e) = true
  /\ to_element (to_double e) = e.

(** An iterate handed back to [AppendElement]. *)
Definition append_of (iv : Data.IndexValue D) : N * D :=
  (Data.index iv, Data.value iv).

End Iterator.

Arguments SkipZerosIterator : clear implicits.

End SparseSkipZeros.

(** ** Index-value iterators over STL containers

    [StlIndexValueIterator.h].  An iterator into a [std::vector] is
    embedded as the part of the container from its position to the end of
    the container: [cbegin] is the whole vector, [cend] is empty, an
    iterator is before another one when it has more left, and [++] drops
    the first element. *)

Module Stl.

(** [*_current == 0] on the element type. *)
Class ZeroTest (E : Type) := { element_is_zero : E -> bool }.

#[export] Instance double_zero_test : ZeroTest double :=
  {| element_is_zero := double_is_zero |}.

#[export] Instance short_zero_test : ZeroTest Z :=
  {| element_is_zero := fun e => Z.eqb e 0 |}.

Definition VectorIterator (E : Type) := list E.

Definition cbegin {E} (vector : list E) : VectorIterator E := vector.

Definition cend {E} (vector : list E) : VectorIterator E := [].

(** [a < b] *)
Definition before {E} (a b : VectorIterator E) : bool :=
  (length b <? length a)%nat.

(** [a != b] *)
Definition differs {E} (a b : VectorIterator E) : bool :=
  negb (length a =? length b)%nat.

Module SkipZeros.

Section Iterator.

Context {D E : Type} `{ElementCast D E} `{ZeroTest E}.

Record Iterator := mkIterator {
  _current : VectorIterator E;
  _end : VectorIterator E;
  _size : N;
  _index : N
}.

(** The loop of [SkipZeros()]:
    [while (_current < _end && *_current == 0) { ++_current; ++_index; }].
    At the end of the container nothing is before [_end], so the loop
    stops there. *)
Fixpoint skip (current last : VectorIterator E) (index : N)
    : VectorIterator E * N :=
  match current with
  | e :: rest =>
      if before current last && element_is_zero e
      then skip rest last (size_succ index)
      else (current, index)
  | [] => (current, index)
  end.

Definition SkipZeros (it : Iterator) : Iterator :=
  let '(current, index) := skip (_current it) (_end it) (_index it) in
  mkIterator current (_end it) (_size it) index.

(** The constructor. *)
Definition make (first last : VectorIterator E) (size : N) : Iterator :=
  SkipZeros (mkIterator first last size 0).

Definition IsValid (it : Iterator) : bool :=
  differs (_current it) (_end it) && (_index it <? _size it).

Definition Next (it : Iterator) : Iterator :=
  SkipZeros (mkIterator (tl (_current it)) (_end it) (_size it) (size_succ (_index it))).

Definition Get (it : Iterator) : Data.IndexValue D :=
  Data.mkIndexValue (_index it) (Data.deref (_current it)).

Fixpoint traverse (fuel : nat) (it : Iterator) : list (Data.IndexValue D) * Iterator :=
  match fuel with
  | O => ([], it)
  | S fuel' =>
      if IsValid it
      then let '(out, last) := traverse fuel' (Next it) in (Get it :: out, last)
      else ([], it)
  end.

(** [MakeVectorIndexValueIterator<IterationPolicy::skipZeros>(vector)] *)
Definition MakeVectorIndexValueIterator (vector : list E) : Iterator :=
  make (cbegin vector) (cend vector) (N.of_nat (length vector)).

(** [MakeVectorIndexValueIterator<IterationPolicy::skipZeros>(vector, size)] *)
Definition MakeVectorIndexValueIterator_size (vector : list E) (size : N) : Iterator :=
  make (cbegin vector) (cend vector) size.

End Iterator.

Arguments Iterator : clear implicits.

End SkipZeros.

Module All.

Section Iterator.

Context {D E : Type} `{ElementCast D E}.

Record Iterator := mkIterator {
  _current : VectorIterator E;
  _end : VectorIterator E;
  _size : N;
  _index : N
}.

(** The constructor; [_index] starts at 0. *)
Definition make (first last : VectorIterator E) (size : N) : Iterator :=
  mkIterator first last size 0.

Definition IsValid (it : Iterator) : bool := _index it <? _size it.

Definition Next (it : Iterator) : Iterator :=
  mkIterator (if before (_current it) (_end it) then tl (_current it) else _current it)
    (_end it) (_size it) (size_succ (_index it)).

Definition Get (it : Iterator) : Data.IndexValue D :=
  if before (_current it) (_end it)
  then Data.mkIndexValue (_index it) (Data.deref (_current it))
  else Data.mkIndexValue (_index it) zero.

Fixpoint traverse (fuel : nat) (it : Iterator) : list (Data.IndexValue D) * Iterator :=
  match fuel with
  | O => ([], it)
  | S fuel' =>
      if IsValid it
      then let '(out, last) := traverse fuel' (Next it) in (Get it :: out, last)
      else ([], it)
  end.

(** [MakeVectorIndexValueIterator<IterationPolicy::all>(vector)] *)
Definition MakeVectorIndexValueIterator (vector : list E) : Iterator :=
  make (cbegin vector) (cend vector) (N.of_nat (length vector)).

(** [MakeVectorIndexValueIterator<IterationPolicy::all>(vector, size)] *)
Definition MakeVectorIndexValueIterator_size (vector : list E) (size : N) : Iterator :=
  make (cbegin vector) (cend vector) size.

End Iterator.

Arguments Iterator : clear implicits.

End All.

Section Positions.

Context {D E : Type} `{ElementCast D E} `{ZeroTest E}.

(** The elements of a range with their positions, counted from [k]. *)
Fixpoint enumerate (k : N) (l : list E) : list (N * E) :=
  match l with
  | [] => []
  | e :: l' => (k, e) :: enumerate (k + 1) l'
  end.

(** The element at position [i] of the range as a [double], [0.0] beyond
    the range. *)
Definition element_at (l : list E) (i : N) : D :=
  match l !! N.to_nat i with
  | Some e => to_double e
  | None => zero
  end.

Definition nonzero (p : N * E) : bool := negb (element_is_zero p.2).

Definition within (size : N) (p : N * E) : bool := p.1 <? size.

End Positions.

End Stl.

(** * Properties of the sparse data vector *)

Module DataTheory.
Import Data.

Lemma size_succ_small x : x < SIZE_MAX -> size_succ x = x + 1.
Proof.
  unfold size_succ, SIZE_MAX. intros Hx. apply N.mod_small. lia.
Qed.

Lemma size_succ_max : size_succ SIZE_MAX = 0.
Proof. reflexivity. Qed.

(** ** The index list *)

Lemma Max_Append i l : Max (Append i l) = N.max (Max l) i.
Proof.
  unfold Append, Max. induction l as [|j l IH]; simpl.
  - lia.
  - rewrite IH. lia.
Qed.

Lemma Max_upper l : Forall (fun j => j <= Max l) l.
Proof.
  induction l as [|j l IH]; constructor; simpl.
  - lia.
  - eapply Forall_impl; [exact IH|]. simpl. intros; lia.
Qed.

Lemma Size_zero l : Size l = 0 <-> l = [].
Proof.
  unfold Size. destruct l; simpl; split; intros; try done; lia.
Qed.

Lemma increasing_snoc l i :
  increasing l -> Forall (fun j => j < i) l -> increasing (l ++ [i]).
Proof.
  induction 1 as [|j l Hj Hl IH]; intros Hi; simpl.
  - repeat constructor.
  - inversion Hi; subst. constructor.
    + apply Forall_app; split; [exact Hj|]. by repeat constructor.
    + by apply IH.
Qed.

Section Vector.

Context {D E : Type} `{ElementCast D E}.

Abbreviation Vec := (SparseDataVector E).

Lemma well_formed_empty : well_formed (empty : Vec).
Proof. split; [constructor | reflexivity]. Qed.

Lemma AppendElement_well_formed i x (v : Vec) :
  well_formed v -> well_formed (vector_of (AppendElement i x v)).
Proof.
  intros [Hinc Hlen]. unfold AppendElement.
  destruct (is_zero x); [by split|].
  destruct (within_tolerance _ _); simpl; [|by split].
  destruct (0 <? Size (_indexList v)) eqn:Hs, (i <=? Max (_indexList v)) eqn:Hm;
    simpl; try by split.
  - split; simpl.
    + apply increasing_snoc; [done|].
      apply N.leb_gt in Hm. eapply Forall_impl; [apply Max_upper|].
      simpl. intros; lia.
    + unfold Append. rewrite !length_app. simpl. lia.
  - apply N.ltb_ge in Hs. assert (Hnil : _indexList v = []) by (apply Size_zero; lia).
    split; simpl.
    + rewrite Hnil. repeat constructor.
    + unfold Append. rewrite !length_app. simpl. lia.
  - apply N.ltb_ge in Hs. assert (Hnil : _indexList v = []) by (apply Size_zero; lia).
    split; simpl.
    + rewrite Hnil. repeat constructor.
    + unfold Append. rewrite !length_app. simpl. lia.
Qed.

Lemma appends_well_formed ops (v : Vec) :
  well_formed v -> well_formed (appends ops v).
Proof.
  revert v. induction ops as [|[i x] ops IH]; intros v Hv; simpl; [done|].
  apply IH. by apply AppendElement_well_formed.
Qed.

(** ** AppendElement *)

Lemma AppendElement_zero i x (v : Vec) :
  is_zero x = true -> AppendElement i x v = Returned v.
Proof. intros Hz. unfold AppendElement. by rewrite Hz. Qed.

Lemma AppendElement_lossy i x (v : Vec) :
  is_zero x = false -> within_tolerance (to_element x) x = false ->
  AppendElement i x v = AssertionFailed v.
Proof. intros Hz Ht. unfold AppendElement. by rewrite Hz, Ht. Qed.

Lemma AppendElement_not_beyond i x (v : Vec) :
  is_zero x = false -> within_tolerance (to_element x) x = true ->
  _indexList v <> [] -> i <= Max (_indexList v) ->
  AppendElement i x v = Thrown indexOutOfRange v.
Proof.
  intros Hz Ht Hne Hle. unfold AppendElement. rewrite Hz, Ht. simpl.
  assert (Hs : (0 <? Size (_indexList v)) = true).
  { apply N.ltb_lt. destruct (N.eq_dec (Size (_indexList v)) 0) as [Hz0|]; [|lia].
    by apply Size_zero in Hz0. }
  assert (Hm : (i <=? Max (_indexList v)) = true) by by apply N.leb_le.
  by rewrite Hs, Hm.
Qed.

Lemma AppendElement_beyond i x (v : Vec) :
  is_zero x = false -> within_tolerance (to_element x) x = true ->
  _indexList v = [] \/ Max (_indexList v) < i ->
  AppendElement i x v =
    Returned (mkSparse (_indexList v ++ [i]) (_values v ++ [to_element x])).
Proof.
  intros Hz Ht Hcase. unfold AppendElement. rewrite Hz, Ht. simpl.
  destruct Hcase as [Hnil|Hlt].
  - rewrite Hnil. reflexivity.
  - assert (Hm : (i <=? Max (_indexList v)) = false) by by apply N.leb_gt.
    rewrite Hm, andb_false_r. reflexivity.
Qed.

Lemma AppendElement_described_agrees i x (v : Vec) :
  within_tolerance (to_element x) x = true ->
  AppendElement i x v = AppendElement_described i x v.
Proof.
  intros Ht. unfold AppendElement, AppendElement_described.
  destruct (is_zero x); [done|]. rewrite Ht. simpl.
  replace (negb (Size (_indexList v) =? 0)) with (0 <? Size (_indexList v)); [done|].
  destruct (N.eqb_spec (Size (_indexList v)) 0) as [->|Hne]; simpl; [done|].
  apply N.ltb_lt. lia.
Qed.

(** ** PrefixLength *)

Lemma AppendElement_remembers i x (v : Vec) last :
  remembers v last ->
  match AppendElement i x v with
  | Returned v' => remembers v' (if is_zero x then last else Some i)
  | Thrown _ v' | AssertionFailed v' => remembers v' last
  end.
Proof.
  intros Hr. unfold AppendElement.
  destruct (is_zero x); [done|].
  destruct (within_tolerance _ _); simpl; [|done].
  destruct (0 <? Size (_indexList v)) eqn:Hs, (i <=? Max (_indexList v)) eqn:Hm;
    simpl; try done.
  - split; [unfold Append; by destruct (_indexList v)|].
    rewrite Max_Append. apply N.leb_gt in Hm. lia.
  - apply N.ltb_ge in Hs. assert (Hnil : _indexList v = []) by (apply Size_zero; lia).
    rewrite Hnil. split; [done|]. simpl. lia.
  - apply N.ltb_ge in Hs. assert (Hnil : _indexList v = []) by (apply Size_zero; lia).
    rewrite Hnil. split; [done|]. simpl. lia.
Qed.

Lemma appends_remembers ops (v : Vec) last :
  remembers v last -> remembers (appends ops v) (last_appended ops v last).
Proof.
  revert v last. induction ops as [|[i x] ops IH]; intros v last Hr; simpl; [done|].
  pose proof (AppendElement_remembers i x v last Hr) as Hstep.
  destruct (AppendElement i x v) as [v'|e v'|v']; simpl; by apply IH.
Qed.

Lemma PrefixLength_unfold (v : Vec) :
  PrefixLength v =
    match _indexList v with
    | [] => 0
    | _ :: _ => size_succ (Max (_indexList v))
    end.
Proof. unfold PrefixLength. by destruct (_indexList v). Qed.

(** ** The [all] iterator *)

Lemma stored_beyond ixs (vs : list E) k :
  Forall (fun j => k < j) ixs -> stored ixs vs k = None.
Proof.
  revert vs. induction ixs as [|j ixs IH]; intros vs Hall; simpl; [done|].
  destruct vs as [|e vs]; [done|].
  inversion Hall; subst.
  destruct (N.eqb_spec j k); [lia|]. by apply IH.
Qed.

Lemma range_lower k count : Forall (fun i => k <= i) (range k count).
Proof.
  revert k. induction count as [|count IH]; intros k; simpl; constructor; [lia|].
  eapply Forall_impl; [apply IH|]. simpl. intros; lia.
Qed.

Lemma range_seq count : range 0 count = List.map N.of_nat (seq 0 count).
Proof.
  assert (Hgen : forall s, range (N.of_nat s) count = List.map N.of_nat (seq s count)).
  { induction count as [|count IH]; intros s; simpl; [done|].
    f_equal. rewrite <- IH. f_equal. lia. }
  apply (Hgen O).
Qed.

Lemma length_range k count : length (range k count) = count.
Proof. revert k. induction count; intros; simpl; auto. Qed.

Lemma make_AllIterator_iterating ixs (vs : list E) size :
  increasing ixs -> length ixs = length vs ->
  iterating 0 (make_AllIterator ixs vs size).
Proof.
  intros Hinc Hlen. unfold iterating, make_AllIterator. simpl.
  repeat split; try done.
  - apply Forall_forall. intros; lia.
  - destruct ixs; simpl; auto.
Qed.

Lemma increasing_inv j l :
  increasing (j :: l) -> Forall (fun k => j < k) l /\ increasing l.
Proof. by inversion 1. Qed.

(** [Get] yields the iterate owed at the current index. *)
Lemma Get_iterating k (it : AllIterator E) :
  iterating k it -> k < _size it ->
  Get it = iterate_at (_indexIterator it) (_valueIterator it) k.
Proof.
  destruct it as [ixs vs next size idx]. unfold iterating, Get, iterate_at. simpl.
  intros (-> & Hlen & Hinc & Hlow & Hnext) Hvalid.
  destruct ixs as [|j ixs]; simpl.
  - destruct (N.eqb_spec k next); [lia|done].
  - destruct vs as [|e vs]; [done|]. simpl.
    apply increasing_inv in Hinc as [Hj Hinc].
    apply Forall_cons in Hlow as [Hkj Hlow].
    destruct (N.eqb_spec k next) as [Heq|Hne].
    + destruct Hnext as [Hn|[Hn1 Hn2]]; [|lia].
      assert (Hjk : j = k) by lia. rewrite Hjk. by rewrite N.eqb_refl.
    + destruct (N.eqb_spec j k) as [Hjk|Hjk].
      * destruct Hnext as [Hn|[Hn1 Hn2]]; [congruence|lia].
      * rewrite stored_beyond; [done|].
        eapply Forall_impl; [exact Hj|]. simpl. intros; lia.
Qed.

(** [Next] moves on to the following index and keeps the later iterates. *)
Lemma Next_iterating k (it : AllIterator E) :
  iterating k it -> k < _size it -> _size it < 2 ^ 64 ->
  iterating (k + 1) (Next it)
  /\ _size (Next it) = _size it
  /\ forall i, k + 1 <= i ->
       iterate_at (_indexIterator (Next it)) (_valueIterator (Next it)) i
       = iterate_at (_indexIterator it) (_valueIterator it) i.
Proof.
  destruct it as [ixs vs next size idx]. unfold iterating, Next. simpl.
  intros (-> & Hlen & Hinc & Hlow & Hnext) Hvalid Hsize.
  assert (Hsucc : size_succ k = k + 1) by (apply size_succ_small; unfold SIZE_MAX; lia).
  rewrite Hsucc.
  destruct (N.eqb_spec k next) as [Heq|Hne]; simpl.
  - destruct ixs as [|j ixs]; [lia|].
    destruct vs as [|e vs]; [done|].
    destruct Hnext as [Hn|[Hn1 Hn2]]; [|lia].
    assert (Hjk : j = k) by lia. rewrite Hjk in *.
    apply increasing_inv in Hinc as [Hj Hinc]. simpl.
    split; [|split; [done|]].
    + repeat split.
      * simpl in Hlen. lia.
      * done.
      * eapply Forall_impl; [exact Hj|]. simpl. intros; lia.
      * destruct ixs as [|j' ixs']; simpl; [done|].
        destruct (N.ltb_spec j' size); simpl; [by left|right; by split].
    + intros i Hi. unfold iterate_at. simpl.
      destruct (N.eqb_spec k i); [lia|done].
  - split; [|split; [done|]].
    + repeat split; try done.
      destruct ixs as [|j ixs]; [done|].
      apply Forall_cons in Hlow as [Hkj Hlow].
      apply increasing_inv in Hinc as [Hj Hinc].
      constructor.
      * destruct Hnext as [Hn|[Hn1 Hn2]]; lia.
      * eapply Forall_impl; [exact Hj|]. simpl. intros; lia.
    + done.
Qed.

Lemma traverse_iterating fuel : forall k (it : AllIterator E),
  iterating k it -> k <= _size it -> _size it < 2 ^ 64 ->
  (N.to_nat (_size it - k) <= fuel)%nat ->
  (traverse fuel it).1
    = List.map (iterate_at (_indexIterator it) (_valueIterator it))
        (range k (N.to_nat (_size it - k)))
  /\ IsValid (traverse fuel it).2 = false.
Proof.
  induction fuel as [|fuel IH]; intros k it Hit Hk Hsize Hfuel.
  - assert (Hend : _size it - k = 0) by lia. rewrite Hend. simpl.
    split; [done|]. unfold IsValid. destruct Hit as [Hidx _]. rewrite Hidx.
    apply N.ltb_ge. lia.
  - simpl. pose proof Hit as [Hidx _].
    destruct (IsValid it) eqn:Hvalid; unfold IsValid in Hvalid; rewrite Hidx in Hvalid.
    + apply N.ltb_lt in Hvalid.
      destruct (Next_iterating k it Hit Hvalid Hsize) as (Hnext & Hsame & Hlater).
      destruct (IH (k + 1) (Next it) Hnext) as [Hout Hlast]; try (rewrite Hsame; lia).
      destruct (traverse fuel (Next it)) as [out last]. simpl in *.
      split; [|done].
      replace (N.to_nat (_size it - k)) with (S (N.to_nat (_size it - (k + 1)))) by lia.
      simpl. f_equal; [by apply Get_iterating|].
      rewrite Hout, Hsame. apply map_ext_in. intros i Hi. apply Hlater.
      pose proof (range_lower (k + 1) (N.to_nat (_size it - (k + 1)))) as Hlow.
      rewrite Forall_forall in Hlow. apply Hlow. by apply list_elem_of_In.
    + apply N.ltb_ge in Hvalid.
      assert (Hend : _size it - k = 0) by lia. rewrite Hend. simpl.
      split; [done|]. unfold IsValid. rewrite Hidx. apply N.ltb_ge. lia.
Qed.

(** ** The statements *)

(** C8 (as amended).  [AppendElement(index, value)] does nothing when
    [value] equals 0.  For a nonzero value whose conversion to the element
    type stays within 1.0e-6 of it: when the vector is not empty and
    [index] is at most the largest stored index, the call throws the input
    exception and leaves the vector unchanged; otherwise it appends [index]
    to the index list and the converted value to the value list.  For a
    nonzero value whose conversion does not stay within 1.0e-6, the
    assertion on the conversion fails, before the index is looked at, and
    the vector is unchanged. *)
Theorem AppendElement_cases (index : N) (value : D) (v : Vec) :
  (is_zero value = true -> AppendElement index value v = Returned v)
  /\ (is_zero value = false -> within_tolerance (to_element value) value = true ->
      _indexList v <> [] -> index <= Max (_indexList v) ->
      AppendElement index value v = Thrown indexOutOfRange v)
  /\ (is_zero value = false -> within_tolerance (to_element value) value = true ->
      _indexList v = [] \/ Max (_indexList v) < index ->
      AppendElement index value v =
        Returned (mkSparse (_indexList v ++ [index]) (_values v ++ [to_element value])))
  /\ (is_zero value = false -> within_tolerance (to_element value) value = false ->
      AppendElement index value v = AssertionFailed v).
Proof.
  repeat split.
  - apply AppendElement_zero.
  - apply AppendElement_not_beyond.
  - apply AppendElement_beyond.
  - apply AppendElement_lossy.
Qed.

(** Below [SIZE_MAX] the prefix length is what its documentation says.
    For every vector built by calls of [AppendElement] whose largest stored
    index is below [SIZE_MAX], [PrefixLength()] is 0 when nothing is stored
    and one plus the largest stored index otherwise; this is one plus the
    index of the last call that stored a nonzero element. *)
Theorem PrefixLength_appends (ops : list (N * D)) :
  let v : Vec := appends ops empty in
  Max (_indexList v) < SIZE_MAX ->
  PrefixLength v = match _indexList v with
                   | [] => 0
                   | _ :: _ => Max (_indexList v) + 1
                   end
  /\ PrefixLength v = match last_appended ops empty None with
                      | None => 0
                      | Some i => i + 1
                      end.
Proof.
  intros v Hmax.
  assert (Hr : remembers v (last_appended ops empty None))
    by (apply appends_remembers; reflexivity).
  rewrite PrefixLength_unfold.
  destruct (last_appended ops empty None) as [i|]; simpl in Hr.
  - destruct Hr as [Hne Hi]. destruct (_indexList v) as [|j l] eqn:Hl; [done|].
    rewrite size_succ_small by exact Hmax. split; [done|]. by rewrite Hi.
  - by rewrite Hr.
Qed.

(** C9 (the code departs from it).  For a vector that stores an element
    at index [SIZE_MAX], [PrefixLength()] returns 0: [_indexList.Max() + 1]
    wraps around in [size_t], and the result is not one plus the largest
    stored index. *)
Theorem PrefixLength_wraps (v : Vec) :
  _indexList v <> [] -> Max (_indexList v) = SIZE_MAX ->
  PrefixLength v = 0 /\ PrefixLength v <> Max (_indexList v) + 1.
Proof.
  intros Hne Hmax. rewrite PrefixLength_unfold.
  destruct (_indexList v) as [|j l]; [done|].
  rewrite Hmax, size_succ_max. split; [done|]. discriminate.
Qed.

(** C10.  For every vector built by calls of [AppendElement] and every
    prefix size [n] (a [size_t]), the loop over the [all] iterator of
    [GetIterator(n)] yields exactly [n] iterates, for the indices
    [0, 1, ..., n - 1] in this order; the iterate at index [i] carries the
    value stored at [i] if there is one and [0.0] otherwise; after them the
    iterator is no longer valid. *)
Theorem all_iterator_iterates (ops : list (N * D)) (n : N) (fuel : nat) :
  n < 2 ^ 64 -> (N.to_nat n <= fuel)%nat ->
  let v : Vec := appends ops empty in
  let run := traverse fuel (GetIterator_all n v) in
  run.1 = List.map (fun i => mkIndexValue i (value_at v i))
            (List.map N.of_nat (seq 0 (N.to_nat n)))
  /\ length run.1 = N.to_nat n
  /\ IsValid run.2 = false.
Proof.
  intros Hn Hfuel v run.
  assert (Hwf : well_formed v) by (apply appends_well_formed, well_formed_empty).
  destruct Hwf as [Hinc Hlen].
  pose proof (make_AllIterator_iterating (_indexList v) (_values v) n Hinc Hlen) as Hit.
  destruct (traverse_iterating fuel 0 (GetIterator_all n v) Hit) as [Hout Hlast].
  - simpl. lia.
  - exact Hn.
  - simpl. rewrite N.sub_0_r. exact Hfuel.
  - simpl in Hout. rewrite N.sub_0_r, range_seq in Hout.
    subst run. rewrite Hout. split; [done|]. split; [|done].
    by rewrite !length_map, length_seq.
Qed.

End Vector.

(** ** Concrete vectors *)

(** [AppendElement] on a [SparseShortDataVector] holding 5 at index 1. *)
Lemma AppendElement_cases_witness :
  let v : SparseDataVector Z := mkSparse [1] [5%Z] in
  AppendElement 3 (finite 0) v = Returned v
  /\ AppendElement 1 (finite 2) v = Thrown indexOutOfRange v
  /\ AppendElement 4 (finite 2) v = Returned (mkSparse [1; 4] [5%Z; 2%Z])
  /\ AppendElement 4 (finite (1 # 2)) v = AssertionFailed v.
Proof.
  intros v. split; [|split; [|split]].
  - destruct (AppendElement_cases 3 (finite 0) v) as (Hzero & _). by apply Hzero.
  - destruct (AppendElement_cases 1 (finite 2) v) as (_ & Hthrow & _).
    apply Hthrow; [reflexivity | reflexivity | discriminate | simpl; lia].
  - destruct (AppendElement_cases 4 (finite 2) v) as (_ & _ & Happend & _).
    apply Happend; [reflexivity | reflexivity | right; simpl; lia].
  - destruct (AppendElement_cases 4 (finite (1 # 2)) v) as (_ & _ & _ & Hassert).
    apply Hassert; reflexivity.
Defined.

(** C8, as stated, fails on a [SparseShortDataVector]: appending 0.5 to the
    empty vector trips the assertion on the conversion, where the three
    cases of the description have the pair (0, 0) appended. *)
Lemma AppendElement_described_counterexample :
  AppendElement 0 (finite (1 # 2)) (empty : SparseDataVector Z) = AssertionFailed empty
  /\ AppendElement_described 0 (finite (1 # 2)) (empty : SparseDataVector Z)
     = Returned (mkSparse [0] [0%Z])
  /\ AppendElement 0 (finite (1 # 2)) (empty : SparseDataVector Z)
     <> AppendElement_described 0 (finite (1 # 2)) empty.
Proof. repeat split. discriminate. Qed.

(** Two stored elements, the larger index being 7: the zero at index 5 is
    skipped and the append at index 4 is refused. *)
Lemma PrefixLength_appends_witness :
  let v : SparseDataVector double :=
    appends [(2, finite 1); (5, finite 0); (7, finite 3); (4, finite 1)] empty in
  Max (_indexList v) < SIZE_MAX /\ PrefixLength v = 8.
Proof.
  intros v. split; [reflexivity|].
  destruct (PrefixLength_appends (E:=double)
              [(2, finite 1); (5, finite 0); (7, finite 3); (4, finite 1)])
    as [_ Hlast]; [reflexivity|].
  exact Hlast.
Defined.

(** A value that [short] cannot hold, an infinity and NaN fail the
    assertion on the conversion and are not stored. *)
Example AppendElement_refused :
  AppendElement 0 (finite 40000) (empty : SparseDataVector Z) = AssertionFailed empty
  /\ AppendElement 0 (infinite false) (empty : SparseDataVector double)
     = AssertionFailed empty
  /\ AppendElement 0 NaN (empty : SparseDataVector double) = AssertionFailed empty.
Proof. split; [reflexivity|]. split; reflexivity. Qed.

(** The failing input of C9: one element stored at the largest [size_t]. *)
Lemma PrefixLength_wraps_witness :
  let v : SparseDataVector double := appends [(SIZE_MAX, finite 1)] empty in
  _indexList v = [SIZE_MAX]
  /\ PrefixLength v = 0
  /\ PrefixLength v <> Max (_indexList v) + 1.
Proof.
  intros v. split; [reflexivity|].
  apply (PrefixLength_wraps v); [discriminate|reflexivity].
Defined.

(** The first six iterates of a vector storing 2, 5 and 7 at the indices
    1, 2 and 4. *)
Lemma all_iterator_iterates_witness :
  let v : SparseDataVector double :=
    appends [(1, finite 2); (3, finite 0); (2, finite 5); (0, finite 1); (4, finite 7)]
      empty in
  (traverse 6 (GetIterator_all 6 v)).1
  = [mkIndexValue 0 (finite 0); mkIndexValue 1 (finite 2); mkIndexValue 2 (finite 5);
     mkIndexValue 3 (finite 0); mkIndexValue 4 (finite 7); mkIndexValue 5 (finite 0)].
Proof.
  intros v.
  destruct (all_iterator_iterates (E:=double)
              [(1, finite 2); (3, finite 0); (2, finite 5); (0, finite 1); (4, finite 7)]
              6 6%nat)
    as [Hout _]; [reflexivity | simpl; lia |].
  exact Hout.
Defined.

End DataTheory.

(** * Properties of the map compiler *)

Module ModelTheory.
Import Model.

Section Registry.

Context `{Emitters}.
Local Open Scope compile_scope.

(** ** The scoped registry *)

Lemma lookup_frames_first key frames :
  first_binding key frames (lookup_frames key frames).
Proof.
  induction frames as [|frame outer IH]; simpl.
  - intros frame Hin. by apply elem_of_nil in Hin.
  - destruct (frame !! key) as [pVar|] eqn:Hkey; simpl.
    + exists O, frame. repeat split; try done. intros j inner Hj. lia.
    + destruct (lookup_frames key outer) as [pVar|]; simpl in *.
      * destruct IH as (i & found & Hi & Hfound & Hinner).
        exists (S i), found. repeat split; try done.
        intros [|j] inner Hj Hlook; simpl in Hlook.
        -- by inversion Hlook; subst.
        -- apply (Hinner j); [lia|done].
      * intros inner Hin. apply elem_of_cons in Hin as [->|Hin]; [done|by apply IH].
Qed.

Lemma GetVariableForPort_pure port c :
  GetVariableForPort port c = Ok (lookup_frames (address port) (frames_of c)) c.
Proof. reflexivity. Qed.

Lemma SetVariableForPort_unbound port pVar c :
  (_portToVarMaps c).1 !! address port = None ->
  SetVariableForPort port pVar c =
    Ok tt (mkCompiler (emitter c)
             (<[address port := pVar]> (_portToVarMaps c).1, (_portToVarMaps c).2)
             (regions c) (events c)).
Proof.
  intros Hnone. unfold SetVariableForPort.
  destruct (_portToVarMaps c) as [top outer]. simpl in *. by rewrite Hnone.
Qed.

Lemma SetVariableForPort_bound port pVar c :
  is_Some ((_portToVarMaps c).1 !! address port) ->
  SetVariableForPort port pVar c = Raised DuplicateBindingFault c.
Proof.
  intros [old Hold]. unfold SetVariableForPort.
  destruct (_portToVarMaps c) as [top outer]. simpl in *. by rewrite Hold.
Qed.

Lemma SetVariableForPort_Ok port pVar c c' :
  SetVariableForPort port pVar c = Ok tt c' ->
  (_portToVarMaps c).1 !! address port = None
  /\ c' = mkCompiler (emitter c)
            (<[address port := pVar]> (_portToVarMaps c).1, (_portToVarMaps c).2)
            (regions c) (events c).
Proof.
  unfold SetVariableForPort. destruct (_portToVarMaps c) as [top outer]. simpl.
  destruct (top !! address port); [discriminate|]. intros [= <-]. done.
Qed.

Lemma PopScope_Ok c c' :
  PopScope c = Ok tt c' ->
  exists inner top outer,
    _portToVarMaps c = (inner, top :: outer)
    /\ c' = mkCompiler (emitter c) (top, outer) (regions c) (events c).
Proof.
  unfold PopScope. destruct (_portToVarMaps c) as [inner [|top outer]]; [discriminate|].
  intros [= <-]. by exists inner, top, outer.
Qed.

(** ** Allocation *)

Lemma AllocatePortVariable_port_unbound port c :
  Size port <> 0 -> (_portToVarMaps c).1 !! address port = None ->
  AllocatePortVariable_port port c =
    Ok (next_variable (emitter c))
       (mkCompiler
          (mkEmitter (heap_base (emitter c))
             (variables (emitter c) ++
                [VectorVariable global (PortTypeToVariableType (GetType port)) (Size port)])
             (allocated (emitter c) ++ [next_variable (emitter c)])
             (functions (emitter c)))
          (<[address port := next_variable (emitter c)]> (_portToVarMaps c).1,
           (_portToVarMaps c).2)
          (regions c) (events c)).
Proof.
  intros Hsize Hnone. unfold AllocatePortVariable_port, bind, assert.
  destruct (N.eqb_spec (Size port) 0) as [|_]; [done|]. simpl.
  by rewrite SetVariableForPort_unbound.
Qed.

Lemma AllocatePortVariable_unbound port initialValue c :
  Size port <> 0 -> (_portToVarMaps c).1 !! address port = None ->
  AllocatePortVariable port initialValue c =
    Ok (next_variable (emitter c))
       (mkCompiler
          (mkEmitter (heap_base (emitter c))
             (variables (emitter c) ++
                [if equals_zero initialValue
                 then VectorVariable global (PortTypeToVariableType (GetType port)) (Size port)
                 else InitializedVectorVariable global (Size port) initialValue])
             (allocated (emitter c) ++ [next_variable (emitter c)])
             (functions (emitter c)))
          (<[address port := next_variable (emitter c)]> (_portToVarMaps c).1,
           (_portToVarMaps c).2)
          (regions c) (events c)).
Proof.
  intros Hsize Hnone. unfold AllocatePortVariable, bind, assert.
  destruct (N.eqb_spec (Size port) 0) as [|_]; [done|]. simpl.
  destruct (equals_zero initialValue); simpl; by rewrite SetVariableForPort_unbound.
Qed.

Lemma AllocatePortVariable_empty_port port initialValue c :
  Size port = 0 -> AllocatePortVariable port initialValue c = Raised MalformedPortFault c.
Proof.
  intros Hsize. unfold AllocatePortVariable, bind, assert. by rewrite Hsize.
Qed.

Lemma AllocatePortVariable_port_empty_port port c :
  Size port = 0 -> AllocatePortVariable_port port c = Raised MalformedPortFault c.
Proof.
  intros Hsize. unfold AllocatePortVariable_port, bind, assert. by rewrite Hsize.
Qed.

Lemma AllocatePortVariable_zero_is_port port initialValue c :
  equals_zero initialValue = true ->
  AllocatePortVariable port initialValue c = AllocatePortVariable_port port c.
Proof.
  intros Hzero. unfold AllocatePortVariable, AllocatePortVariable_port. by rewrite Hzero.
Qed.

Lemma top_lookup_frames key c pVar :
  (_portToVarMaps c).1 !! key = Some pVar ->
  lookup_frames key (frames_of c) = Some pVar.
Proof. intros Htop. unfold frames_of. simpl. by rewrite Htop. Qed.

Lemma lookup_frames_None_top key c :
  lookup_frames key (frames_of c) = None -> (_portToVarMaps c).1 !! key = None.
Proof.
  unfold frames_of. simpl. by destruct ((_portToVarMaps c).1 !! key).
Qed.

Lemma GetOrAllocatePortVariable_found port initialValue c pVar :
  lookup_frames (address port) (frames_of c) = Some pVar ->
  GetOrAllocatePortVariable port initialValue c = Ok pVar c.
Proof.
  intros Hfound. unfold GetOrAllocatePortVariable, bind.
  rewrite GetVariableForPort_pure, Hfound. reflexivity.
Qed.

Lemma GetOrAllocatePortVariable_missing port initialValue c :
  lookup_frames (address port) (frames_of c) = None ->
  GetOrAllocatePortVariable port initialValue c = AllocatePortVariable_port port c.
Proof.
  intros Hnone. unfold GetOrAllocatePortVariable, bind.
  rewrite GetVariableForPort_pure, Hnone. reflexivity.
Qed.

Lemma GetOrAllocatePortVariable_port_eq port initialValue :
  GetOrAllocatePortVariable_port port = GetOrAllocatePortVariable port initialValue.
Proof. reflexivity. Qed.

Lemma push_set_pop port pVar c c1 c2 c3 :
  PushScope c = Ok tt c1 -> SetVariableForPort port pVar c1 = Ok tt c2 ->
  PopScope c2 = Ok tt c3 -> c3 = c.
Proof.
  unfold PushScope. destruct c as [e [top outer] rs evs]. simpl.
  intros [= <-] Hset Hpop.
  apply SetVariableForPort_Ok in Hset as [_ ->].
  unfold PopScope in Hpop. simpl in Hpop. by inversion Hpop.
Qed.

(** ** The statements *)

(** C5.  [GetVariableForPort(p)] searches the open frames from the
    innermost outward and returns the first binding found for [p], or the
    not-found signal when no frame binds [p], and leaves the compiler as it
    is.  After [p] is bound in the current, inner frame, a lookup returns
    that binding; after that frame is popped, a lookup returns what the
    enclosing frames bind, or not-found.  In particular a frame that is
    pushed, binds [p] and is popped leaves the lookups of [p] as they were
    before. *)
Theorem GetVariableForPort_scoping (port : OutputPortBase) (c : MapCompiler) :
  (exists found,
      GetVariableForPort port c = Ok found c
      /\ first_binding (address port) (frames_of c) found)
  /\ (forall pVar bound,
        SetVariableForPort port pVar c = Ok tt bound ->
        GetVariableForPort port bound = Ok (Some pVar) bound
        /\ forall popped,
             PopScope bound = Ok tt popped ->
             exists found,
               GetVariableForPort port popped = Ok found popped
               /\ first_binding (address port) (_portToVarMaps c).2 found)
  /\ (forall pVar pushed bound popped,
        PushScope c = Ok tt pushed ->
        SetVariableForPort port pVar pushed = Ok tt bound ->
        PopScope bound = Ok tt popped ->
        GetVariableForPort port bound = Ok (Some pVar) bound
        /\ GetVariableForPort port popped
           = Ok (lookup_frames (address port) (frames_of c)) popped).
Proof.
  split; [|split].
  - exists (lookup_frames (address port) (frames_of c)).
    split; [reflexivity | apply lookup_frames_first].
  - intros pVar bound Hset. apply SetVariableForPort_Ok in Hset as [Hnone ->].
    split.
    + rewrite GetVariableForPort_pure. f_equal. unfold frames_of. simpl.
      by rewrite lookup_insert_eq.
    + intros popped Hpop. apply PopScope_Ok in Hpop as (inner & top & outer & Hmaps & ->).
      simpl in Hmaps. exists (lookup_frames (address port) (top :: outer)).
      rewrite GetVariableForPort_pure. unfold frames_of. simpl.
      inversion Hmaps as [[Hinner Houter]]. split; [done|].
      rewrite Houter. apply (lookup_frames_first (address port) (top :: outer)).
  - intros pVar pushed bound popped Hpush Hset Hpop.
    pose proof (push_set_pop _ _ _ _ _ _ Hpush Hset Hpop) as ->.
    split; [|reflexivity].
    apply SetVariableForPort_Ok in Hset as [_ ->].
    rewrite GetVariableForPort_pure. f_equal. unfold frames_of. simpl.
    by rewrite lookup_insert_eq.
Qed.

(** C1.  When a call of [GetOrAllocatePortVariable(p)] returns a variable,
    a second call returns the identical variable and leaves the compiler
    untouched, so that nothing new is allocated.  When no open frame bound
    [p] before, the first call has the emitter create one variable and
    binds it to [p] in the current frame, and every later call made while
    that frame is the current one and still holds its bindings returns
    this variable without allocating; when [p] was bound, the first call
    returns that binding and allocates nothing either. *)
Theorem GetOrAllocatePortVariable_idempotent (port : OutputPortBase)
    (first second : ValueType) (c c1 : MapCompiler) (pVar : VariablePtr) :
  GetOrAllocatePortVariable port first c = Ok pVar c1 ->
  GetOrAllocatePortVariable port second c1 = Ok pVar c1
  /\ GetOrAllocatePortVariable_port port c1 = Ok pVar c1
  /\ match lookup_frames (address port) (frames_of c) with
     | Some bound => pVar = bound /\ c1 = c
     | None =>
         pVar = next_variable (emitter c)
         /\ length (variables (emitter c1)) = S (length (variables (emitter c)))
         /\ _portToVarMaps c1
            = (<[address port := pVar]> (_portToVarMaps c).1, (_portToVarMaps c).2)
         /\ forall later initialValue,
              (_portToVarMaps c1).1 ⊆ (_portToVarMaps later).1 ->
              GetOrAllocatePortVariable port initialValue later = Ok pVar later
     end.
Proof.
  intros Hfirst.
  assert (Hbound : lookup_frames (address port) (frames_of c1) = Some pVar
                   /\ match lookup_frames (address port) (frames_of c) with
                      | Some bound => pVar = bound /\ c1 = c
                      | None =>
                          pVar = next_variable (emitter c)
                          /\ length (variables (emitter c1)) = S (length (variables (emitter c)))
                          /\ _portToVarMaps c1
                             = (<[address port := pVar]> (_portToVarMaps c).1,
                                (_portToVarMaps c).2)
                      end).
  { destruct (lookup_frames (address port) (frames_of c)) as [bound|] eqn:Hlook.
    - rewrite (GetOrAllocatePortVariable_found _ _ _ _ Hlook) in Hfirst.
      injection Hfirst as Hvar Hc1. by rewrite <- Hvar, <- Hc1.
    - rewrite (GetOrAllocatePortVariable_missing _ _ _ Hlook) in Hfirst.
      destruct (N.eq_dec (Size port) 0) as [Hsize|Hsize].
      + by rewrite AllocatePortVariable_port_empty_port in Hfirst.
      + rewrite AllocatePortVariable_port_unbound in Hfirst;
          [|done|by apply lookup_frames_None_top].
        injection Hfirst as Hvar Hc1. rewrite <- Hvar, <- Hc1. simpl.
        split; [|split; [done|split; [|done]]].
        * unfold frames_of. simpl. by rewrite lookup_insert_eq.
        * rewrite length_app. simpl. lia. }
  destruct Hbound as [Hnow Hthen].
  split; [by apply GetOrAllocatePortVariable_found|].
  split; [by apply (GetOrAllocatePortVariable_found port first)|].
  destruct (lookup_frames (address port) (frames_of c)); [done|].
  destruct Hthen as (Hvar & Hcount & Hmaps). repeat split; try done.
  intros later initialValue Hsub. apply GetOrAllocatePortVariable_found.
  apply top_lookup_frames. eapply lookup_weaken; [|exact Hsub].
  rewrite Hmaps. simpl. by rewrite lookup_insert_eq.
Qed.

(** C2 (the code departs from it).  For a port that no open frame binds
    and a nonzero initial value, [GetOrAllocatePortVariable(port,
    initialValue)] has the emitter create a vector variable without initial
    value, where [AllocatePortVariable(port, initialValue)] has it create
    one seeded with [initialValue]: the initial value is not passed on. *)
Theorem GetOrAllocatePortVariable_drops_initialValue (port : OutputPortBase)
    (initialValue : ValueType) (c : MapCompiler) :
  Size port <> 0 ->
  lookup_frames (address port) (frames_of c) = None ->
  equals_zero initialValue = false ->
  variables (emitter (compiler_of (GetOrAllocatePortVariable port initialValue c)))
  = variables (emitter c)
    ++ [VectorVariable global (PortTypeToVariableType (GetType port)) (Size port)]
  /\ variables (emitter (compiler_of (AllocatePortVariable port initialValue c)))
     = variables (emitter c) ++ [InitializedVectorVariable global (Size port) initialValue].
Proof.
  intros Hsize Hnone Hnonzero.
  pose proof (lookup_frames_None_top _ _ Hnone) as Htop.
  rewrite GetOrAllocatePortVariable_missing by done.
  rewrite AllocatePortVariable_port_unbound, AllocatePortVariable_unbound by done.
  simpl. by rewrite Hnonzero.
Qed.

(** C3.  [AllocatePortVariable(port, initialValue)] has the emitter create
    the variable without a seed when [initialValue] equals zero, just as
    the overload without initial value does, and seeded with
    [initialValue] when it is nonzero; any two initial values that equal
    zero lead to the same result, so that an explicit zero cannot be told
    from no initial value. *)
Theorem AllocatePortVariable_initialValue (port : OutputPortBase)
    (initialValue : ValueType) (c : MapCompiler) :
  Size port <> 0 ->
  (_portToVarMaps c).1 !! address port = None ->
  (exists pVar c',
      AllocatePortVariable port initialValue c = Ok pVar c'
      /\ variables (emitter c')
         = variables (emitter c)
           ++ [if equals_zero initialValue
               then VectorVariable global (PortTypeToVariableType (GetType port)) (Size port)
               else InitializedVectorVariable global (Size port) initialValue])
  /\ (equals_zero initialValue = true ->
      AllocatePortVariable port initialValue c = AllocatePortVariable_port port c
      /\ forall other, equals_zero other = true ->
           AllocatePortVariable port other c = AllocatePortVariable port initialValue c).
Proof.
  intros Hsize Hnone. split.
  - eexists _, _. split; [by apply AllocatePortVariable_unbound|]. reflexivity.
  - intros Hzero. split; [by apply AllocatePortVariable_zero_is_port|].
    intros other Hother.
    by rewrite !AllocatePortVariable_zero_is_port.
Qed.

End Registry.

Section Orchestration.

Context `{Emitters}.
Local Open Scope compile_scope.

(** ** Faults abort the pass *)

Lemma bind_Raised {A B} (m : Compile A) (k : A -> Compile B) c f c' :
  m c = Raised f c' -> bind m k c = Raised f c'.
Proof. intros Hm. unfold bind. by rewrite Hm. Qed.

Lemma bind_Ok {A B} (m : Compile A) (k : A -> Compile B) c a c' :
  m c = Ok a c' -> bind m k c = k a c'.
Proof. intros Hm. unfold bind. by rewrite Hm. Qed.

Lemma keeps_ret {A} (a : A) : keeps_functions (ret a).
Proof. by intros c. Qed.

Lemma keeps_bind {A B} (m : Compile A) (k : A -> Compile B) :
  keeps_functions m -> (forall a, keeps_functions (k a)) -> keeps_functions (bind m k).
Proof.
  intros Hm Hk c. unfold bind. specialize (Hm c).
  destruct (m c) as [a c'|f c']; simpl in *; [|done].
  by rewrite Hk.
Qed.

Lemma keeps_assert cond f : keeps_functions (assert cond f).
Proof. intros c. unfold assert. by destruct cond. Qed.

Lemma keeps_AddVariable var : keeps_functions (AddVariable var).
Proof. by intros c. Qed.

Lemma keeps_AllocateVariable pVar : keeps_functions (AllocateVariable pVar).
Proof. by intros c. Qed.

Lemma keeps_SetVariableForPort port pVar : keeps_functions (SetVariableForPort port pVar).
Proof.
  intros c. unfold SetVariableForPort. destruct (_portToVarMaps c) as [top outer].
  by destruct (top !! address port).
Qed.

Lemma keeps_GetVariableForPort port : keeps_functions (GetVariableForPort port).
Proof. by intros c. Qed.

Lemma keeps_for_each {A} (f : A -> Compile unit) l :
  (forall a, keeps_functions (f a)) -> keeps_functions (for_each f l).
Proof.
  intros Hf. induction l as [|a l IH]; simpl; [apply keeps_ret|].
  apply keeps_bind; [apply Hf | by intros _].
Qed.

Lemma keeps_record e : keeps_functions (record e).
Proof. by intros c. Qed.

Lemma keeps_NewNodeRegion node : keeps_functions (NewNodeRegion node).
Proof. by intros c. Qed.

Lemma keeps_TryMergeNodeRegion node : keeps_functions (TryMergeNodeRegion node).
Proof.
  intros c. unfold TryMergeNodeRegion.
  destruct (merge_policy (node_id node)); [|done].
  by destruct (regions c) as [|r [|prev rest]].
Qed.

Lemma keeps_CheckScopesClosed : keeps_functions CheckScopesClosed.
Proof. intros c. unfold CheckScopesClosed. by destruct ((_portToVarMaps c).2). Qed.

Local Ltac keeps :=
  repeat first
    [ apply keeps_ret | apply keeps_assert | apply keeps_AddVariable
    | apply keeps_AllocateVariable | apply keeps_SetVariableForPort
    | apply keeps_GetVariableForPort | apply keeps_record
    | apply keeps_NewNodeRegion | apply keeps_TryMergeNodeRegion
    | apply keeps_CheckScopesClosed
    | apply keeps_bind | apply keeps_for_each | intros ? ].

Lemma keeps_AllocatePortVariable_port port : keeps_functions (AllocatePortVariable_port port).
Proof. unfold AllocatePortVariable_port, AddVectorVariable. keeps. Qed.

Lemma keeps_GetOrAllocatePortVariable port initialValue :
  keeps_functions (GetOrAllocatePortVariable port initialValue).
Proof.
  unfold GetOrAllocatePortVariable. apply keeps_bind; [keeps|].
  intros [pVar|]; [keeps | apply keeps_AllocatePortVariable_port].
Qed.

Lemma keeps_GetOrAllocatePortVariable_port port :
  keeps_functions (GetOrAllocatePortVariable_port port).
Proof.
  unfold GetOrAllocatePortVariable_port. apply keeps_bind; [keeps|].
  intros [pVar|]; [keeps | apply keeps_AllocatePortVariable_port].
Qed.

Lemma keeps_lower node : keeps_functions (lower node).
Proof.
  unfold lower. apply keeps_bind; [|intros _]; apply keeps_for_each; intros port.
  - apply keeps_bind; [apply keeps_GetOrAllocatePortVariable_port|keeps].
  - destruct (node_initial node) as [initialValue|]; apply keeps_bind;
      first [apply keeps_GetOrAllocatePortVariable
            |apply keeps_GetOrAllocatePortVariable_port|keeps].
Qed.

Lemma keeps_CompileNode node : keeps_functions (CompileNode node).
Proof.
  unfold CompileNode.
  apply keeps_bind; [apply keeps_record|intros _].
  apply keeps_bind; [apply keeps_NewNodeRegion|intros _].
  apply keeps_bind; [apply keeps_TryMergeNodeRegion|intros _].
  apply keeps_bind; [apply keeps_lower|intros _].
  apply keeps_record.
Qed.

Lemma keeps_CompileNodes nodes : keeps_functions (CompileNodes nodes).
Proof. apply keeps_for_each, keeps_CompileNode. Qed.

Lemma keeps_AllocatePortFunctionArgument port argType :
  keeps_functions (AllocatePortFunctionArgument port argType).
Proof. unfold AllocatePortFunctionArgument, AddVectorVariable. keeps. Qed.

Lemma keeps_AllocateMapFunctionArguments map :
  keeps_functions (AllocateMapFunctionArguments map).
Proof.
  unfold AllocateMapFunctionArguments.
  assert (Hargs : forall argType (b : string * OutputPortBase),
             keeps_functions (AllocatePortFunctionArgument b.2 argType ;;; ret tt)).
  { intros argType b.
    apply keeps_bind; [apply keeps_AllocatePortFunctionArgument|intros _; apply keeps_ret]. }
  apply keeps_bind; [apply keeps_for_each, Hargs|intros _].
  apply keeps_bind; [apply keeps_for_each, Hargs|intros _].
  apply keeps_ret.
Qed.

(** Whatever fault ends [CompileMap], no function has been finalized. *)
Lemma CompileMap_Raised_functions map functionName c f c' :
  CompileMap map functionName c = Raised f c' ->
  functions (emitter c') = functions (emitter c).
Proof.
  unfold CompileMap. intros Hrun.
  assert (Hkeeps : keeps_functions
            (assert (has_bindings map) ConfigurationFault ;;;
             AllocateMapFunctionArguments map ;;;
             CompileNodes (map_nodes map) ;;;
             record OnEndCompileModel ;;;
             CheckScopesClosed)).
  { apply keeps_bind; [apply keeps_assert|intros _].
    apply keeps_bind; [apply keeps_AllocateMapFunctionArguments|intros _].
    apply keeps_bind; [apply keeps_CompileNodes|intros _].
    apply keeps_bind; [apply keeps_record|intros _].
    apply keeps_CheckScopesClosed. }
  revert Hrun. specialize (Hkeeps c). unfold bind in *.
  destruct (assert (has_bindings map) ConfigurationFault c) as [[] c1|f1 c1];
    [|intros [= <- <-]; exact Hkeeps].
  destruct (AllocateMapFunctionArguments map c1) as [args c2|f2 c2];
    [|intros [= <- <-]; exact Hkeeps].
  destruct (CompileNodes (map_nodes map) c2) as [[] c3|f3 c3];
    [|intros [= <- <-]; exact Hkeeps].
  destruct (record OnEndCompileModel c3) as [[] c4|f4 c4];
    [|intros [= <- <-]; exact Hkeeps].
  destruct (CheckScopesClosed c4) as [[] c5|f5 c5];
    [|intros [= <- <-]; exact Hkeeps].
  discriminate.
Qed.

(** ** The nodes are visited in the order of the graph *)

Lemma visits_unchanged {A} (m : Compile A) :
  (forall c, visited (compiler_of (m c)) = visited c) -> visits [] m.
Proof.
  intros Hm c. exists []. rewrite Hm, app_nil_r. split; [done|].
  split; [by exists []|done].
Qed.

Lemma visits_bind {A B} l1 l2 (m : Compile A) (k : A -> Compile B) :
  visits l1 m -> (forall a, visits l2 (k a)) -> visits (l1 ++ l2) (bind m k).
Proof.
  intros Hm Hk c. unfold bind. destruct (Hm c) as (l1' & Hv1 & [rest1 Hrest1] & Hall1).
  destruct (m c) as [a c'|f c']; simpl in *.
  - rewrite (Hall1 eq_refl) in Hv1.
    destruct (Hk a c') as (l2' & Hv2 & [rest2 Hrest2] & Hall2).
    exists (l1 ++ l2'). rewrite Hv2, Hv1, <- app_assoc. split; [done|].
    split; [exists rest2; by rewrite Hrest2, <- app_assoc|].
    intros Hok. by rewrite (Hall2 Hok).
  - exists l1'. split; [done|]. split; [|done].
    exists (rest1 ++ l2). by rewrite Hrest1, <- app_assoc.
Qed.

Lemma visits_silent_bind {A B} l (m : Compile A) (k : A -> Compile B) :
  visits [] m -> (forall a, visits l (k a)) -> visits l (bind m k).
Proof. intros Hm Hk. by apply (visits_bind [] l). Qed.

Lemma visits_for_each_silent {A} (f : A -> Compile unit) l :
  (forall a, visits [] (f a)) -> visits [] (for_each f l).
Proof.
  intros Hf. induction l as [|a l IH]; simpl.
  - by apply visits_unchanged.
  - apply visits_silent_bind; [apply Hf|by intros _].
Qed.

Lemma visits_assert cond f : visits [] (assert cond f).
Proof. apply visits_unchanged. intros c. unfold assert. by destruct cond. Qed.

Lemma visits_SetVariableForPort port pVar : visits [] (SetVariableForPort port pVar).
Proof.
  apply visits_unchanged. intros c. unfold SetVariableForPort.
  destruct (_portToVarMaps c) as [top outer]. by destruct (top !! address port).
Qed.

Lemma visits_AllocatePortVariable_port port : visits [] (AllocatePortVariable_port port).
Proof.
  unfold AllocatePortVariable_port.
  apply visits_silent_bind; [apply visits_assert|intros _].
  apply visits_silent_bind; [by apply visits_unchanged|intros pVar].
  apply visits_silent_bind; [by apply visits_unchanged|intros _].
  apply visits_silent_bind; [apply visits_SetVariableForPort|intros _].
  by apply visits_unchanged.
Qed.

Lemma visits_GetOrAllocatePortVariable port initialValue :
  visits [] (GetOrAllocatePortVariable port initialValue ;;; ret tt).
Proof.
  apply visits_silent_bind; [|intros _; by apply visits_unchanged].
  unfold GetOrAllocatePortVariable.
  apply visits_silent_bind; [by apply visits_unchanged|].
  intros [pVar|]; [by apply visits_unchanged|apply visits_AllocatePortVariable_port].
Qed.

Lemma visits_GetOrAllocatePortVariable_port port :
  visits [] (GetOrAllocatePortVariable_port port ;;; ret tt).
Proof.
  apply visits_silent_bind; [|intros _; by apply visits_unchanged].
  unfold GetOrAllocatePortVariable_port.
  apply visits_silent_bind; [by apply visits_unchanged|].
  intros [pVar|]; [by apply visits_unchanged|apply visits_AllocatePortVariable_port].
Qed.

Lemma visits_lower node : visits [] (lower node).
Proof.
  unfold lower.
  apply visits_silent_bind; [|intros _]; apply visits_for_each_silent; intros port.
  - apply visits_GetOrAllocatePortVariable_port.
  - destruct (node_initial node) as [initialValue|];
      [apply visits_GetOrAllocatePortVariable
      |apply visits_GetOrAllocatePortVariable_port].
Qed.

Lemma visited_snoc c e :
  visited (mkCompiler (emitter c) (_portToVarMaps c) (regions c) (events c ++ [e]))
  = visited c ++ match e with OnBeginCompileNode n => [n] | _ => [] end.
Proof.
  unfold visited. simpl. rewrite omap_app. by destruct e.
Qed.

Lemma visits_TryMergeNodeRegion node : visits [] (TryMergeNodeRegion node).
Proof.
  apply visits_unchanged. intros c. unfold TryMergeNodeRegion.
  destruct (merge_policy (node_id node)); [|done].
  destruct (regions c) as [|r [|prev rest]]; try done.
  simpl. unfold visited. simpl. by rewrite omap_app, app_nil_r.
Qed.

Lemma visits_CompileNode node : visits [node_id node] (CompileNode node).
Proof.
  unfold CompileNode. apply (visits_bind [node_id node] []).
  - intros c. exists [node_id node]. split; [apply visited_snoc|].
    split; [by exists []|done].
  - intros _.
    apply visits_silent_bind.
    { apply visits_unchanged. intros c. unfold NewNodeRegion, visited. simpl.
      by rewrite omap_app, app_nil_r. }
    intros _. apply visits_silent_bind; [apply visits_TryMergeNodeRegion|intros _].
    apply visits_silent_bind; [apply visits_lower|intros _].
    apply visits_unchanged. intros c. unfold record, visited. simpl.
    by rewrite omap_app, app_nil_r.
Qed.

Lemma visits_CompileNodes nodes :
  visits (List.map node_id nodes) (CompileNodes nodes).
Proof.
  unfold CompileNodes. induction nodes as [|node nodes IH]; simpl.
  - by apply visits_unchanged.
  - apply (visits_bind [node_id node]); [apply visits_CompileNode|by intros _].
Qed.

Lemma visits_AllocateMapFunctionArguments map :
  visits [] (AllocateMapFunctionArguments map).
Proof.
  unfold AllocateMapFunctionArguments.
  assert (Hargs : forall argType (b : string * OutputPortBase),
             visits [] (AllocatePortFunctionArgument b.2 argType ;;; ret tt)).
  { intros argType b. unfold AllocatePortFunctionArgument.
    apply visits_silent_bind; [|intros _; by apply visits_unchanged].
    apply visits_silent_bind; [apply visits_assert|intros _].
    apply visits_silent_bind; [by apply visits_unchanged|intros pVar].
    apply visits_silent_bind; [apply visits_SetVariableForPort|intros _].
    by apply visits_unchanged. }
  apply visits_silent_bind; [apply visits_for_each_silent, Hargs|intros _].
  apply visits_silent_bind; [apply visits_for_each_silent, Hargs|intros _].
  by apply visits_unchanged.
Qed.

Lemma visits_CompileMap map functionName :
  visits (List.map node_id (map_nodes map)) (CompileMap map functionName).
Proof.
  unfold CompileMap.
  apply visits_silent_bind; [apply visits_assert|intros _].
  apply visits_silent_bind; [apply visits_AllocateMapFunctionArguments|intros _].
  rewrite <- (app_nil_r (List.map node_id (map_nodes map))).
  apply visits_bind; [apply visits_CompileNodes|intros _].
  apply visits_silent_bind.
  { apply visits_unchanged. intros c. unfold record, visited. simpl.
    by rewrite omap_app, app_nil_r. }
  intros _. apply visits_silent_bind.
  { apply visits_unchanged. intros c. unfold CheckScopesClosed.
    by destruct ((_portToVarMaps c).2). }
  intros _. by apply visits_unchanged.
Qed.

(** A fresh compiler visits an initial segment of the graph's enumeration
    of the nodes, and all of it when [CompileMap] returns. *)
Lemma CompileMap_visits_in_order map functionName base :
  (exists rest,
      List.map node_id (map_nodes map)
      = visited (compiler_of (CompileMap map functionName (fresh base))) ++ rest)
  /\ (verdict (CompileMap map functionName (fresh base)) = None ->
      visited (compiler_of (CompileMap map functionName (fresh base)))
      = List.map node_id (map_nodes map)).
Proof.
  destruct (visits_CompileMap map functionName (fresh base)) as (l' & Hv & Hrest & Hall).
  rewrite Hv. simpl. split; [exact Hrest|exact Hall].
Qed.

(** ** Runs do not depend on where the variables live *)

Section Shift.

Variable d : N.

Lemma shifted_ret {A} (fA : A -> A) (a : A) : shifted fA d (ret a) (ret (fA a)).
Proof. by intros c. Qed.

Lemma shifted_bind {A B} (fA : A -> A) (fB : B -> B)
    (m m' : Compile A) (k k' : A -> Compile B) :
  shifted fA d m m' -> (forall a, shifted fB d (k a) (k' (fA a))) ->
  shifted fB d (bind m k) (bind m' k').
Proof.
  intros Hm Hk c. unfold bind. rewrite Hm.
  destruct (m c) as [a c'|f c']; simpl; [apply Hk|done].
Qed.

Lemma shifted_assert cond f : shifted id d (assert cond f) (assert cond f).
Proof. intros c. unfold assert. by destruct cond. Qed.

Lemma shifted_AddVariable var : shifted (N.add d) d (AddVariable var) (AddVariable var).
Proof.
  intros c. unfold AddVariable. simpl. unfold shift, shift_emitter, next_variable. simpl.
  f_equal. lia.
Qed.

Lemma shifted_AllocateVariable pVar :
  shifted id d (AllocateVariable pVar) (AllocateVariable (d + pVar)).
Proof.
  intros c. unfold AllocateVariable. simpl. unfold shift, shift_emitter. simpl.
  by rewrite List.map_app.
Qed.

Lemma shifted_SetVariableForPort port pVar :
  shifted id d (SetVariableForPort port pVar) (SetVariableForPort port (d + pVar)).
Proof.
  intros c. destruct c as [e [top outer] rs evs].
  unfold SetVariableForPort, shift, shift_frame.
  cbn [_portToVarMaps emitter regions events fst snd].
  rewrite lookup_fmap.
  destruct (top !! address port) eqn:Htop; cbn [fmap option_fmap option_map shift_result].
  - reflexivity.
  - unfold shift, shift_frame. cbn [_portToVarMaps emitter regions events fst snd].
    by rewrite fmap_insert.
Qed.

Lemma lookup_frames_shift key frames :
  lookup_frames key (List.map (shift_frame d) frames)
  = N.add d <$> lookup_frames key frames.
Proof.
  induction frames as [|frame outer IH]; simpl; [done|].
  unfold shift_frame at 1. rewrite lookup_fmap.
  by destruct (frame !! key).
Qed.

Lemma shifted_GetVariableForPort port :
  shifted (fmap (N.add d)) d (GetVariableForPort port) (GetVariableForPort port).
Proof.
  intros c. unfold GetVariableForPort. simpl. f_equal.
  apply (lookup_frames_shift (address port) ((_portToVarMaps c).1 :: (_portToVarMaps c).2)).
Qed.

Lemma shifted_for_each {A} (f : A -> Compile unit) l :
  (forall a, shifted id d (f a) (f a)) -> shifted id d (for_each f l) (for_each f l).
Proof.
  intros Hf. induction l as [|a l IH]; simpl; [apply (shifted_ret id tt)|].
  eapply shifted_bind; [apply Hf|]. by intros _.
Qed.

Lemma shifted_record e : shifted id d (record e) (record e).
Proof. by intros c. Qed.

Lemma shifted_NewNodeRegion node : shifted id d (NewNodeRegion node) (NewNodeRegion node).
Proof. by intros c. Qed.

Lemma shifted_TryMergeNodeRegion node :
  shifted id d (TryMergeNodeRegion node) (TryMergeNodeRegion node).
Proof.
  intros c. unfold TryMergeNodeRegion. simpl.
  destruct (merge_policy (node_id node)); [|done].
  by destruct (regions c) as [|r [|prev rest]].
Qed.

Lemma shifted_CheckScopesClosed : shifted id d CheckScopesClosed CheckScopesClosed.
Proof.
  intros c. unfold CheckScopesClosed. simpl. by destruct ((_portToVarMaps c).2).
Qed.

Lemma shifted_FinalizeFunction name :
  shifted id d (FinalizeFunction name) (FinalizeFunction name).
Proof. by intros c. Qed.

(** A call whose value is an address, followed by [ret tt]. *)
Lemma shifted_discard (m : Compile VariablePtr) :
  shifted (N.add d) d m m -> shifted id d (m ;;; ret tt) (m ;;; ret tt).
Proof.
  intros Hm. eapply shifted_bind; [exact Hm|]. intros _. apply (shifted_ret id tt).
Qed.

Lemma shifted_bound_variable port pVar :
  shifted (N.add d) d
    (AllocateVariable pVar ;;; SetVariableForPort port pVar ;;; ret pVar)
    (AllocateVariable (d + pVar) ;;; SetVariableForPort port (d + pVar) ;;; ret (d + pVar)).
Proof.
  eapply shifted_bind; [apply shifted_AllocateVariable|]. intros _.
  eapply shifted_bind; [apply shifted_SetVariableForPort|]. intros _.
  apply (shifted_ret (N.add d)).
Qed.

Lemma shifted_AllocatePortVariable_port port :
  shifted (N.add d) d (AllocatePortVariable_port port) (AllocatePortVariable_port port).
Proof.
  unfold AllocatePortVariable_port.
  eapply shifted_bind; [apply shifted_assert|]. intros _.
  eapply shifted_bind; [apply shifted_AddVariable|]. intros pVar.
  apply shifted_bound_variable.
Qed.

Lemma shifted_AllocatePortVariable port initialValue :
  shifted (N.add d) d (AllocatePortVariable port initialValue)
    (AllocatePortVariable port initialValue).
Proof.
  unfold AllocatePortVariable.
  eapply shifted_bind; [apply shifted_assert|]. intros _.
  eapply shifted_bind;
    [destruct (equals_zero initialValue); apply shifted_AddVariable|].
  intros pVar. apply shifted_bound_variable.
Qed.

Lemma shifted_GetOrAllocatePortVariable port initialValue :
  shifted (N.add d) d (GetOrAllocatePortVariable port initialValue)
    (GetOrAllocatePortVariable port initialValue).
Proof.
  unfold GetOrAllocatePortVariable.
  eapply shifted_bind; [apply shifted_GetVariableForPort|].
  intros [pVar|]; simpl;
    [apply (shifted_ret (N.add d)) | apply shifted_AllocatePortVariable_port].
Qed.

Lemma shifted_GetOrAllocatePortVariable_port port :
  shifted (N.add d) d (GetOrAllocatePortVariable_port port)
    (GetOrAllocatePortVariable_port port).
Proof.
  unfold GetOrAllocatePortVariable_port.
  eapply shifted_bind; [apply shifted_GetVariableForPort|].
  intros [pVar|]; simpl;
    [apply (shifted_ret (N.add d)) | apply shifted_AllocatePortVariable_port].
Qed.

Lemma shifted_lower node : shifted id d (lower node) (lower node).
Proof.
  unfold lower. eapply shifted_bind.
  - apply shifted_for_each. intros port.
    apply shifted_discard, shifted_GetOrAllocatePortVariable_port.
  - intros _. apply shifted_for_each. intros port.
    destruct (node_initial node) as [initialValue|]; apply shifted_discard;
      [apply shifted_GetOrAllocatePortVariable
      |apply shifted_GetOrAllocatePortVariable_port].
Qed.

Lemma shifted_CompileNode node : shifted id d (CompileNode node) (CompileNode node).
Proof.
  unfold CompileNode.
  eapply shifted_bind; [apply shifted_record|]. intros _.
  eapply shifted_bind; [apply shifted_NewNodeRegion|]. intros _.
  eapply (shifted_bind id); [apply shifted_TryMergeNodeRegion|]. intros _.
  eapply shifted_bind; [apply shifted_lower|]. intros _.
  apply shifted_record.
Qed.

Lemma shifted_AllocatePortFunctionArgument port argType :
  shifted (N.add d) d (AllocatePortFunctionArgument port argType)
    (AllocatePortFunctionArgument port argType).
Proof.
  unfold AllocatePortFunctionArgument.
  eapply shifted_bind; [apply shifted_assert|]. intros _.
  eapply shifted_bind; [apply shifted_AddVariable|]. intros pVar.
  eapply shifted_bind; [apply shifted_SetVariableForPort|]. intros _.
  apply (shifted_ret (N.add d)).
Qed.

Lemma shifted_AllocateMapFunctionArguments map :
  shifted id d (AllocateMapFunctionArguments map) (AllocateMapFunctionArguments map).
Proof.
  unfold AllocateMapFunctionArguments.
  eapply shifted_bind.
  { apply shifted_for_each. intros b.
    apply shifted_discard, shifted_AllocatePortFunctionArgument. }
  intros _. eapply shifted_bind.
  { apply shifted_for_each. intros b.
    apply shifted_discard, shifted_AllocatePortFunctionArgument. }
  intros _. apply (shifted_ret id).
Qed.

Lemma shifted_CompileMap map functionName :
  shifted id d (CompileMap map functionName) (CompileMap map functionName).
Proof.
  unfold CompileMap.
  eapply shifted_bind; [apply shifted_assert|]. intros _.
  eapply (shifted_bind id); [apply shifted_AllocateMapFunctionArguments|]. intros _.
  eapply shifted_bind; [apply shifted_for_each, shifted_CompileNode|]. intros _.
  eapply shifted_bind; [apply shifted_record|]. intros _.
  eapply shifted_bind; [apply shifted_CheckScopesClosed|]. intros _.
  apply shifted_FinalizeFunction.
Qed.

End Shift.

Lemma fresh_shift base : fresh base = shift base (fresh 0).
Proof.
  unfold fresh, shift, shift_emitter, shift_frame. simpl.
  by rewrite fmap_empty.
Qed.

Lemma CompileMap_fresh map functionName base :
  CompileMap map functionName (fresh base)
  = shift_result id base (CompileMap map functionName (fresh 0)).
Proof. rewrite fresh_shift. apply shifted_CompileMap. Qed.

Lemma observed_shift_result {A} (fA : A -> A) base (r : Result A) :
  visited (compiler_of (shift_result fA base r)) = visited (compiler_of r)
  /\ variable_count (compiler_of (shift_result fA base r)) = variable_count (compiler_of r)
  /\ verdict (shift_result fA base r) = verdict r.
Proof. by destruct r. Qed.

Lemma GetOrAllocatePortVariable_empty_port port initialValue c :
  Size port = 0 -> lookup_frames (address port) (frames_of c) = None ->
  GetOrAllocatePortVariable port initialValue c = Raised MalformedPortFault c.
Proof.
  intros Hsize Hnone. rewrite GetOrAllocatePortVariable_missing by done.
  by apply AllocatePortVariable_port_empty_port.
Qed.

Lemma AllocatePortVariable_verdict port initialValue c :
  Size port <> 0 ->
  verdict (AllocatePortVariable port initialValue c) <> Some MalformedPortFault.
Proof.
  intros Hsize.
  destruct ((_portToVarMaps c).1 !! address port) as [old|] eqn:Htop.
  - unfold AllocatePortVariable, bind, assert.
    destruct (N.eqb_spec (Size port) 0) as [|_]; [done|]. simpl.
    destruct (equals_zero initialValue); simpl;
      rewrite SetVariableForPort_bound by (simpl; by rewrite Htop); done.
  - by rewrite AllocatePortVariable_unbound.
Qed.

Lemma AllocatePortVariable_port_verdict port c :
  Size port <> 0 ->
  verdict (AllocatePortVariable_port port c) <> Some MalformedPortFault.
Proof.
  intros Hsize.
  destruct ((_portToVarMaps c).1 !! address port) as [old|] eqn:Htop.
  - unfold AllocatePortVariable_port, bind, assert.
    destruct (N.eqb_spec (Size port) 0) as [|_]; [done|]. simpl.
    rewrite SetVariableForPort_bound by (simpl; by rewrite Htop). done.
  - by rewrite AllocatePortVariable_port_unbound.
Qed.

Lemma CompileMap_traversal_fault map functionName c arguments c1 f c2 :
  has_bindings map = true ->
  AllocateMapFunctionArguments map c = Ok arguments c1 ->
  CompileNodes (map_nodes map) c1 = Raised f c2 ->
  CompileMap map functionName c = Raised f c2.
Proof.
  intros Hmap Hargs Hnodes. unfold CompileMap. rewrite Hmap.
  unfold assert. rewrite (bind_Ok _ _ c tt c) by reflexivity.
  rewrite (bind_Ok _ _ _ _ _ Hargs).
  by apply bind_Raised.
Qed.

(** ** The statements *)

(** C4.  For a port with no element, [AllocatePortVariable] raises the
    malformed-port fault, in both overloads, and so does
    [GetOrAllocatePortVariable] when no frame binds the port; for a port
    with elements neither overload raises this fault.  A fault raised
    during the traversal of the nodes ends the enclosing [CompileMap] with
    that fault, and a [CompileMap] that ends with a fault has finalized no
    function. *)
Theorem AllocatePortVariable_malformed_port (port : OutputPortBase)
    (initialValue : ValueType) (c : MapCompiler) :
  (Size port = 0 ->
   AllocatePortVariable port initialValue c = Raised MalformedPortFault c
   /\ AllocatePortVariable_port port c = Raised MalformedPortFault c
   /\ (lookup_frames (address port) (frames_of c) = None ->
       GetOrAllocatePortVariable port initialValue c = Raised MalformedPortFault c))
  /\ (Size port <> 0 ->
      verdict (AllocatePortVariable port initialValue c) <> Some MalformedPortFault
      /\ verdict (AllocatePortVariable_port port c) <> Some MalformedPortFault)
  /\ (forall map functionName arguments bound f aborted,
        has_bindings map = true ->
        AllocateMapFunctionArguments map c = Ok arguments bound ->
        CompileNodes (map_nodes map) bound = Raised f aborted ->
        CompileMap map functionName c = Raised f aborted
        /\ functions (emitter aborted) = functions (emitter c)).
Proof.
  split; [|split].
  - intros Hsize. split; [by apply AllocatePortVariable_empty_port|].
    split; [by apply AllocatePortVariable_port_empty_port|].
    by apply GetOrAllocatePortVariable_empty_port.
  - intros Hsize. split;
      [by apply AllocatePortVariable_verdict | by apply AllocatePortVariable_port_verdict].
  - intros map functionName arguments bound f aborted Hmap Hargs Hnodes.
    pose proof (CompileMap_traversal_fault _ functionName _ _ _ _ _ Hmap Hargs Hnodes) as Hrun.
    split; [exact Hrun|]. by apply (CompileMap_Raised_functions _ _ _ _ _ Hrun).
Qed.

(** C7.  [CompileMap(map, functionName)] on a map that declares no input
    binding or no output binding raises the configuration fault and leaves
    the compiler exactly as it was: no hook has run, no region has been
    opened and no variable has been created. *)
Theorem CompileMap_configuration_fault (map : Map) (functionName : string)
    (c : MapCompiler) :
  map_inputs map = [] \/ map_outputs map = [] ->
  CompileMap map functionName c = Raised ConfigurationFault c
  /\ events (compiler_of (CompileMap map functionName c)) = events c
  /\ regions (compiler_of (CompileMap map functionName c)) = regions c
  /\ variables (emitter (compiler_of (CompileMap map functionName c)))
     = variables (emitter c).
Proof.
  intros Hmap.
  assert (Hnone : has_bindings map = false).
  { unfold has_bindings. destruct Hmap as [-> | ->]; [done|].
    by destruct (map_inputs map). }
  assert (Hrun : CompileMap map functionName c = Raised ConfigurationFault c).
  { unfold CompileMap. by rewrite Hnone. }
  by rewrite Hrun.
Qed.

(** ** The variables a compilation creates *)

Lemma binds_unchanged {A} (m : Compile A) :
  (forall c, _portToVarMaps (compiler_of (m c)) = _portToVarMaps c
             /\ variables (emitter (compiler_of (m c))) = variables (emitter c)) ->
  binds ∅ m.
Proof.
  intros Hm c Hflat. destruct (Hm c) as [Hmaps Hvars].
  destruct (m c) as [a c'|f c']; simpl in *; [|done].
  unfold bound_ports, variable_count. rewrite Hmaps, Hvars.
  split; [done|]. split; [by rewrite (right_id_L ∅ (∪))|lia].
Qed.

Lemma binds_bind {A B} S1 S2 (m : Compile A) (k : A -> Compile B) :
  binds S1 m -> (forall a, binds S2 (k a)) -> binds (S1 ∪ S2) (bind m k).
Proof.
  intros Hm Hk c Hflat. unfold bind. specialize (Hm c Hflat).
  destruct (m c) as [a c'|f c']; [|done].
  destruct Hm as (Hflat' & Hdom' & Hcount').
  specialize (Hk a c' Hflat'). destruct (k a c') as [b c''|f c'']; [|done].
  destruct Hk as (Hflat'' & Hdom'' & Hcount'').
  split; [done|]. split; [by rewrite Hdom'', Hdom', (assoc_L (∪))|lia].
Qed.

Lemma binds_silent_bind {A B} S (m : Compile A) (k : A -> Compile B) :
  binds ∅ m -> (forall a, binds S (k a)) -> binds S (bind m k).
Proof.
  intros Hm Hk. rewrite <- (left_id_L ∅ (∪) S). by apply binds_bind.
Qed.

Lemma binds_bind_silent {A B} S (m : Compile A) (k : A -> Compile B) :
  binds S m -> (forall a, binds ∅ (k a)) -> binds S (bind m k).
Proof.
  intros Hm Hk. rewrite <- (right_id_L ∅ (∪) S). by apply binds_bind.
Qed.

Lemma binds_ret {A} (a : A) : binds ∅ (ret a).
Proof. by apply binds_unchanged. Qed.

Lemma binds_assert cond f : binds ∅ (assert cond f).
Proof. apply binds_unchanged. intros c. unfold assert. by destruct cond. Qed.

(** A variable is created and bound to a port that the current frame did
    not bind. *)
Lemma binds_bound_variable port var (after : VariablePtr -> Compile unit) :
  (forall pVar c, _portToVarMaps (compiler_of (after pVar c)) = _portToVarMaps c
                  /\ variables (emitter (compiler_of (after pVar c))) = variables (emitter c)
                  /\ verdict (after pVar c) = None) ->
  binds {[address port]}
    (pVar <- AddVariable var ;; after pVar ;;; SetVariableForPort port pVar ;;; ret pVar).
Proof.
  intros Hafter c Hflat. unfold bind at 1. unfold AddVariable at 1.
  set (c1 := mkCompiler _ _ _ _). set (pVar := next_variable (emitter c)).
  unfold bind at 1. destruct (Hafter pVar c1) as (Hmaps & Hvars & Hok).
  destruct (after pVar c1) as [[] c2|f c2]; [|done]. simpl in Hmaps, Hvars.
  unfold bind at 1.
  destruct (SetVariableForPort port pVar c2) as [[] c3|f c3] eqn:Hset; [|done].
  apply SetVariableForPort_Ok in Hset as [Hnone ->]. simpl.
  unfold bound_ports, variable_count. simpl. rewrite Hmaps, Hvars. simpl.
  split; [by rewrite Hflat|]. rewrite dom_insert_L. split; [apply (comm_L (∪))|].
  rewrite size_union by (apply disjoint_singleton_l, not_elem_of_dom; by rewrite <- Hmaps).
  rewrite size_singleton, length_app. simpl. lia.
Qed.

Lemma binds_AllocatePortVariable_port port :
  binds {[address port]} (AllocatePortVariable_port port).
Proof.
  unfold AllocatePortVariable_port.
  apply binds_silent_bind; [apply binds_assert|intros _].
  apply (binds_bound_variable port _ AllocateVariable). by intros pVar c.
Qed.

Lemma binds_AllocatePortFunctionArgument port argType :
  binds {[address port]} (AllocatePortFunctionArgument port argType).
Proof.
  unfold AllocatePortFunctionArgument.
  apply binds_silent_bind; [apply binds_assert|intros _].
  intros c Hflat.
  pose proof (binds_bound_variable port
                (VectorVariable
                   (match argType with ArgType_input => input | ArgType_output => output end)
                   (PortTypeToVariableType (GetType port)) (Size port))
                (fun _ => ret tt)) as Hbinds.
  specialize (Hbinds (fun pVar c => conj eq_refl (conj eq_refl eq_refl)) c Hflat).
  exact Hbinds.
Qed.

Lemma binds_found port (m : Compile VariablePtr) :
  binds {[address port]} m ->
  binds {[address port]}
    (found <- GetVariableForPort port ;;
     match found with Some pVar => ret pVar | None => m end).
Proof.
  intros Hm c Hflat. unfold bind at 1. rewrite GetVariableForPort_pure.
  unfold frames_of. rewrite Hflat. simpl.
  destruct ((_portToVarMaps c).1 !! address port) as [pVar|] eqn:Htop.
  - simpl. split; [done|]. split; [|lia].
    unfold bound_ports. apply elem_of_dom_2 in Htop.
    rewrite (comm_L (∪)). symmetry. apply subseteq_union_1_L.
    by apply singleton_subseteq_l.
  - by apply Hm.
Qed.

Lemma binds_discard S (m : Compile VariablePtr) :
  binds S m -> binds S (m ;;; ret tt).
Proof. intros Hm. apply binds_bind_silent; [done|]. intros _. apply binds_ret. Qed.

Lemma binds_for_each_ports (f : OutputPortBase -> Compile unit) ports :
  (forall port, binds {[address port]} (f port)) ->
  binds (ports_set ports) (for_each f ports).
Proof.
  intros Hf. induction ports as [|port ports IH]; simpl.
  - apply binds_ret.
  - unfold ports_set. simpl. apply binds_bind; [apply Hf|by intros _].
Qed.

Lemma binds_lower node :
  binds (ports_set (node_inputs node) ∪ ports_set (node_outputs node)) (lower node).
Proof.
  unfold lower. apply binds_bind; [|intros _]; apply binds_for_each_ports; intros port.
  - apply binds_discard, binds_found, binds_AllocatePortVariable_port.
  - destruct (node_initial node) as [initialValue|];
      apply binds_discard, binds_found, binds_AllocatePortVariable_port.
Qed.

Lemma binds_CompileNode node :
  binds (ports_set (node_inputs node) ∪ ports_set (node_outputs node)) (CompileNode node).
Proof.
  unfold CompileNode.
  apply binds_silent_bind; [by apply binds_unchanged|intros _].
  apply binds_silent_bind; [by apply binds_unchanged|intros _].
  apply binds_silent_bind.
  { apply binds_unchanged. intros c. unfold TryMergeNodeRegion.
    destruct (merge_policy (node_id node)); [|done].
    by destruct (regions c) as [|r [|prev rest]]. }
  intros _. apply binds_bind_silent; [apply binds_lower|intros _].
  by apply binds_unchanged.
Qed.

Lemma binds_CompileNodes nodes : binds (nodes_ports nodes) (CompileNodes nodes).
Proof.
  unfold CompileNodes. induction nodes as [|node nodes IH]; simpl.
  - apply binds_ret.
  - apply binds_bind; [apply binds_CompileNode|by intros _].
Qed.

Lemma binds_arguments argType (bindings : list (string * OutputPortBase)) :
  binds (ports_set bindings.*2)
    (for_each (fun b => AllocatePortFunctionArgument b.2 argType ;;; ret tt) bindings).
Proof.
  induction bindings as [|[name port] bindings IH]; simpl.
  - apply binds_ret.
  - unfold ports_set. simpl. apply binds_bind; [|by intros _].
    apply binds_discard, binds_AllocatePortFunctionArgument.
Qed.

Lemma binds_AllocateMapFunctionArguments map :
  binds (ports_set (map_inputs map).*2 ∪ ports_set (map_outputs map).*2)
    (AllocateMapFunctionArguments map).
Proof.
  unfold AllocateMapFunctionArguments.
  apply binds_bind; [apply binds_arguments|intros _].
  apply binds_bind_silent; [apply binds_arguments|intros _].
  apply binds_ret.
Qed.

Lemma binds_CompileMap map functionName :
  binds (map_ports map) (CompileMap map functionName).
Proof.
  unfold CompileMap, map_ports.
  apply binds_silent_bind; [apply binds_assert|intros _].
  apply binds_bind; [apply binds_AllocateMapFunctionArguments|intros _].
  apply binds_bind_silent; [apply binds_CompileNodes|intros _].
  apply binds_silent_bind; [by apply binds_unchanged|intros _].
  apply binds_silent_bind.
  { apply binds_unchanged. intros c. unfold CheckScopesClosed.
    by destruct ((_portToVarMaps c).2). }
  intros _. by apply binds_unchanged.
Qed.

(** C6.  Two compilations of the same map under the same name, started
    from compilers that differ only in where their emitters place the
    variables, agree: the same node-visitation sequence, the same number
    of variables and the same ending (both return, or both raise the same
    fault).  What they agree on is fixed by the graph.  The nodes visited
    are an initial segment of the graph's own enumeration of its nodes,
    and the whole enumeration when the compilation returns.  When it
    returns and no scope was open at the start, the variables created are
    one for each port of the map (declared, read or written) that was not
    bound before. *)
Theorem CompileMap_deterministic (map : Map) (functionName : string)
    (c : MapCompiler) (base1 base2 : N) :
  let first := CompileMap map functionName (shift base1 c) in
  let second := CompileMap map functionName (shift base2 c) in
  (visited (compiler_of first) = visited (compiler_of second)
   /\ variable_count (compiler_of first) = variable_count (compiler_of second)
   /\ verdict first = verdict second)
  /\ (exists seen rest,
        visited (compiler_of first) = visited c ++ seen
        /\ List.map node_id (map_nodes map) = seen ++ rest
        /\ (verdict first = None -> rest = []))
  /\ (verdict first = None -> (_portToVarMaps c).2 = [] ->
      (variable_count (compiler_of first) + size (bound_ports c)
       = variable_count c + size (bound_ports c ∪ map_ports map))%nat).
Proof.
  intros first second. subst first second.
  rewrite (shifted_CompileMap base1 map functionName c).
  rewrite (shifted_CompileMap base2 map functionName c).
  destruct (observed_shift_result id base1 (CompileMap map functionName c))
    as (Hv1 & Hc1 & Hr1).
  destruct (observed_shift_result id base2 (CompileMap map functionName c))
    as (Hv2 & Hc2 & Hr2).
  rewrite Hv1, Hv2, Hc1, Hc2, Hr1, Hr2.
  split; [done|]. split.
  - destruct (visits_CompileMap map functionName c) as (seen & Hseen & [rest Hrest] & Hall).
    exists seen, rest. split; [done|]. split; [done|].
    intros Hok. specialize (Hall Hok). rewrite Hall in Hrest.
    apply (app_inv_head (List.map node_id (map_nodes map))). by rewrite app_nil_r.
  - intros Hok Hflat. pose proof (binds_CompileMap map functionName c Hflat) as Hbinds.
    destruct (CompileMap map functionName c) as [[] c'|f c']; [|discriminate].
    destruct Hbinds as (_ & Hdom & Hcount). simpl. by rewrite <- Hdom.
Qed.

End Orchestration.

(** ** Concrete compilations *)

Section Samples.

#[local] Existing Instance sample_emitters.
Local Open Scope compile_scope.

(** A port of three reals at address 7; the emitter places its first
    variable at address 100. *)
Lemma GetOrAllocatePortVariable_idempotent_witness :
  let port := mkPort 7 real 3 in
  exists c1,
    GetOrAllocatePortVariable port 5%Z (fresh 100) = Ok 100 c1
    /\ GetOrAllocatePortVariable port 0%Z c1 = Ok 100 c1.
Proof.
  intros port.
  exists (compiler_of (GetOrAllocatePortVariable port 5%Z (fresh 100))).
  assert (Hfirst : GetOrAllocatePortVariable port 5%Z (fresh 100)
                   = Ok 100 (compiler_of (GetOrAllocatePortVariable port 5%Z (fresh 100))))
    by reflexivity.
  split; [exact Hfirst|].
  destruct (GetOrAllocatePortVariable_idempotent port 5%Z 0%Z _ _ _ Hfirst)
    as [Hsecond _].
  exact Hsecond.
Defined.

(** The failing input of C2: a port of one real and the initial value 5. *)
Lemma GetOrAllocatePortVariable_drops_initialValue_witness :
  let port := mkPort 1 real 1 in
  variables (emitter (compiler_of (GetOrAllocatePortVariable port 5%Z (fresh 0))))
  = [VectorVariable global real 1]
  /\ variables (emitter (compiler_of (AllocatePortVariable port 5%Z (fresh 0))))
     = [InitializedVectorVariable global 1 5%Z].
Proof.
  intros port.
  apply (GetOrAllocatePortVariable_drops_initialValue port 5%Z (fresh 0));
    [discriminate | reflexivity | reflexivity].
Defined.

Lemma AllocatePortVariable_initialValue_witness :
  let port := mkPort 1 integer 4 in
  (exists pVar c',
      AllocatePortVariable port 0%Z (fresh 0) = Ok pVar c'
      /\ variables (emitter c') = [VectorVariable global integer 4])
  /\ (exists pVar c',
        AllocatePortVariable port 9%Z (fresh 0) = Ok pVar c'
        /\ variables (emitter c') = [InitializedVectorVariable global 4 9%Z]).
Proof.
  intros port. split.
  - destruct (AllocatePortVariable_initialValue port 0%Z (fresh 0))
      as [Hcreated _]; [discriminate | reflexivity |].
    exact Hcreated.
  - destruct (AllocatePortVariable_initialValue port 9%Z (fresh 0))
      as [Hcreated _]; [discriminate | reflexivity |].
    exact Hcreated.
Defined.

Lemma AllocatePortVariable_malformed_port_witness :
  AllocatePortVariable emptyB 1%Z (fresh 0) = Raised MalformedPortFault (fresh 0)
  /\ verdict (AllocatePortVariable portB 1%Z (fresh 0)) <> Some MalformedPortFault
  /\ verdict (CompileMap broken_chain "predict" (fresh 0)) = Some MalformedPortFault
  /\ functions (emitter (compiler_of (CompileMap broken_chain "predict" (fresh 0)))) = [].
Proof.
  destruct (AllocatePortVariable_malformed_port emptyB 1%Z (fresh 0))
    as (Hempty & _ & Habort).
  destruct (AllocatePortVariable_malformed_port portB 1%Z (fresh 0))
    as (_ & Hfull & _).
  split; [by apply Hempty|].
  split; [by apply Hfull|].
  pose (bound := compiler_of (AllocateMapFunctionArguments broken_chain (fresh 0))).
  pose (aborted := compiler_of (CompileNodes (map_nodes broken_chain) bound)).
  assert (Hargs : AllocateMapFunctionArguments broken_chain (fresh 0)
                  = Ok [("input"%string, real); ("output"%string, real)] bound)
    by (vm_compute; reflexivity).
  assert (Hnodes : CompileNodes (map_nodes broken_chain) bound
                   = Raised MalformedPortFault aborted)
    by (vm_compute; reflexivity).
  destruct (Habort broken_chain "predict"%string _ bound MalformedPortFault aborted
              eq_refl Hargs Hnodes) as [Hrun Hfunctions].
  split; [exact (f_equal verdict Hrun)|].
  exact (eq_trans (f_equal (fun r => functions (emitter (compiler_of r))) Hrun) Hfunctions).
Defined.

Lemma GetVariableForPort_scoping_witness :
  let outer := compiler_of (SetVariableForPort portA 10 (fresh 0)) in
  let pushed := compiler_of (PushScope outer) in
  let bound := compiler_of (SetVariableForPort portA 20 pushed) in
  let popped := compiler_of (PopScope bound) in
  GetVariableForPort portA bound = Ok (Some 20) bound
  /\ GetVariableForPort portA popped = Ok (Some 10) popped
  /\ GetVariableForPort portB popped = Ok None popped.
Proof.
  intros outer pushed bound popped.
  destruct (GetVariableForPort_scoping portA outer) as (_ & _ & Hshadow).
  destruct (Hshadow 20 pushed bound popped) as [Hinner Houter];
    [reflexivity | reflexivity | reflexivity |].
  split; [exact Hinner|]. split; [exact Houter|]. reflexivity.
Defined.

Lemma CompileMap_configuration_fault_witness :
  CompileMap (mkMap [] [("output"%string, portC)] [mkNode 1 [] [portC] None])
    "predict" (fresh 0)
  = Raised ConfigurationFault (fresh 0).
Proof.
  apply (CompileMap_configuration_fault
           (mkMap [] [("output"%string, portC)] [mkNode 1 [] [portC] None])).
  by left.
Defined.

(** The chain compiled by two compilers whose emitters place their
    variables at the addresses 16 and 4096. *)
Lemma CompileMap_deterministic_witness :
  let first := CompileMap chain "predict" (shift 16 (fresh 0)) in
  let second := CompileMap chain "predict" (shift 4096 (fresh 0)) in
  verdict first = None /\ verdict second = None
  /\ visited (compiler_of first) = [1; 2; 3]%positive
  /\ visited (compiler_of second) = [1; 2; 3]%positive
  /\ variable_count (compiler_of first) = 3%nat
  /\ variable_count (compiler_of second) = 3%nat.
Proof.
  intros first second.
  destruct (CompileMap_deterministic chain "predict" (fresh 0) 16 4096)
    as ((Hvisited & Hcount & Hverdict) & (seen & rest & Hseen & Hnodes & Hall) & Hvars).
  fold first in Hvisited, Hcount, Hverdict, Hseen, Hall, Hvars.
  fold second in Hvisited, Hcount, Hverdict.
  assert (Hok : verdict first = None) by (vm_compute; reflexivity).
  assert (Hfirst : visited (compiler_of first) = [1; 2; 3]%positive).
  { rewrite Hseen. rewrite (Hall Hok), app_nil_r in Hnodes. by rewrite <- Hnodes. }
  assert (Hthree : variable_count (compiler_of first) = 3%nat).
  { specialize (Hvars Hok eq_refl).
    assert (Hsize : size (bound_ports (fresh 0) ∪ map_ports chain) = 3%nat)
      by (vm_compute; reflexivity).
    rewrite Hsize in Hvars.
    assert (Hnone : size (bound_ports (fresh 0)) = 0%nat) by (vm_compute; reflexivity).
    rewrite Hnone in Hvars. simpl in Hvars. lia. }
  split; [exact Hok|]. split; [by rewrite <- Hverdict|].
  split; [exact Hfirst|]. split; [by rewrite <- Hvisited|].
  split; [exact Hthree|]. by rewrite <- Hcount.
Defined.

(** The chain A -> B -> C is visited in this order, with three variables
    created and one function finalized. *)
Example CompileMap_chain :
  let c := compiler_of (CompileMap chain "predict" (fresh 0)) in
  verdict (CompileMap chain "predict" (fresh 0)) = None
  /\ visited c = [1; 2; 3]%positive
  /\ variable_count c = 3%nat
  /\ regions c = [[1; 2; 3]%positive]
  /\ functions (emitter c) = ["predict"%string].
Proof. vm_compute. repeat split. Qed.

(** Fan-out: the output of A feeds B and C; the second request for it
    returns the variable of the first. *)
Example GetOrAllocatePortVariable_fan_out :
  let c1 := compiler_of (GetOrAllocatePortVariable_port portA (fresh 0)) in
  let c2 := compiler_of (GetOrAllocatePortVariable_port portA c1) in
  GetOrAllocatePortVariable_port portA (fresh 0) = Ok 0 c1
  /\ GetOrAllocatePortVariable_port portA c1 = Ok 0 c1
  /\ variable_count c2 = 1%nat.
Proof. repeat split. Qed.

End Samples.

End ModelTheory.

(** * More on the sparse data vector *)

Module SparseVectorTheory.
Import Data DataTheory.

Section Vector.

Context {D E : Type} `{ElementCast D E}.

Abbreviation Vec := (SparseDataVector E).

(** ** What [AppendElement] stores *)

Lemma stored_absent ixs (vs : list E) k :
  Forall (fun j => j <> k) ixs -> stored ixs vs k = None.
Proof.
  revert vs. induction ixs as [|j ixs IH]; intros vs Hall; simpl; [done|].
  destruct vs as [|e vs]; [done|].
  apply Forall_cons in Hall as [Hj Hall].
  destruct (N.eqb_spec j k); [done|]. by apply IH.
Qed.

Lemma stored_snoc ixs (vs : list E) i e k :
  length ixs = length vs ->
  stored (ixs ++ [i]) (vs ++ [e]) k
  = match stored ixs vs k with
    | Some x => Some x
    | None => if i =? k then Some e else None
    end.
Proof.
  revert vs. induction ixs as [|j ixs IH]; intros vs Hlen; simpl.
  - destruct vs; [done|discriminate].
  - destruct vs as [|x vs]; [discriminate|]. simpl.
    destruct (j =? k); [done|]. apply IH. simpl in Hlen. lia.
Qed.

Lemma stored_member ixs (vs : list E) k :
  length ixs = length vs -> k ∈ ixs -> is_Some (stored ixs vs k).
Proof.
  revert vs. induction ixs as [|j ixs IH]; intros vs Hlen Hin.
  - by apply elem_of_nil in Hin.
  - destruct vs as [|x vs]; [discriminate|]. simpl.
    destruct (N.eqb_spec j k) as [|Hne]; [by eexists|].
    apply IH; [simpl in Hlen; lia|].
    apply elem_of_cons in Hin as [->|Hin]; done.
Qed.

Lemma Max_member l : l <> [] -> Max l ∈ l.
Proof.
  induction l as [|j l IH]; [done|]. intros _. simpl.
  destruct l as [|j' l'].
  - simpl. rewrite N.max_0_r. apply elem_of_cons. by left.
  - destruct (N.max_spec j (Max (j' :: l'))) as [[_ Hmax]|[_ Hmax]];
      unfold Max in Hmax |- *; simpl in Hmax |- *; rewrite Hmax.
    + apply elem_of_cons. right. by apply IH.
    + apply elem_of_cons. by left.
Qed.

Lemma AppendElement_Returned index value (v v' : Vec) :
  is_zero value = false -> AppendElement index value v = Returned v' ->
  (_indexList v = [] \/ Max (_indexList v) < index)
  /\ v' = mkSparse (_indexList v ++ [index]) (_values v ++ [to_element value]).
Proof.
  intros Hnz. unfold AppendElement. rewrite Hnz.
  destruct (within_tolerance _ _); simpl; [|discriminate].
  destruct (0 <? Size (_indexList v)) eqn:Hs, (index <=? Max (_indexList v)) eqn:Hm;
    simpl; try discriminate; intros [= <-]; (split; [|done]).
  - right. by apply N.leb_gt.
  - left. apply Size_zero. apply N.ltb_ge in Hs. lia.
  - left. apply Size_zero. apply N.ltb_ge in Hs. lia.
Qed.

(** X1.  [AppendElement] keeps the class invariant, whatever way the call
    ends: the indices stay strictly increasing and every index keeps its
    value.  It only ever appends: what the vector held stays where it was,
    and at most one element is added. *)
Theorem AppendElement_invariant (index : N) (value : D) (v : Vec) :
  well_formed v ->
  well_formed (vector_of (AppendElement index value v))
  /\ exists ixs vs,
       _indexList (vector_of (AppendElement index value v)) = _indexList v ++ ixs
       /\ _values (vector_of (AppendElement index value v)) = _values v ++ vs
       /\ length ixs = length vs /\ (length ixs <= 1)%nat.
Proof.
  intros Hwf. split; [by apply AppendElement_well_formed|].
  unfold AppendElement.
  assert (Hsame : exists ixs vs,
             _indexList v = _indexList v ++ ixs /\ _values v = _values v ++ vs
             /\ length ixs = length vs /\ (length ixs <= 1)%nat).
  { exists [], []. rewrite !app_nil_r. simpl. repeat split; lia. }
  destruct (is_zero value); [exact Hsame|].
  destruct (within_tolerance _ _); simpl; [|exact Hsame].
  destruct ((0 <? Size (_indexList v)) && (index <=? Max (_indexList v))); simpl;
    [exact Hsame|].
  exists [index], [to_element value]. simpl. repeat split; lia.
Qed.

(** X2.  After a call of [AppendElement(index, value)] with a nonzero
    value has returned, the vector holds the converted value at [index]
    and, at every other index, what it held before. *)
Theorem AppendElement_value_at (index : N) (value : D) (v v' : Vec) :
  well_formed v -> is_zero value = false ->
  AppendElement index value v = Returned v' ->
  value_at v' index = to_double (to_element value)
  /\ forall j, j <> index -> value_at v' j = value_at v j.
Proof.
  intros [Hinc Hlen] Hnz Hret.
  apply AppendElement_Returned in Hret as [Hbeyond ->]; [|done].
  unfold value_at. simpl. split.
  - rewrite stored_snoc by done. rewrite stored_absent; [by rewrite N.eqb_refl|].
    destruct Hbeyond as [->|Hmax]; [constructor|].
    eapply Forall_impl; [apply Max_upper|]. simpl. intros; lia.
  - intros j Hj. rewrite stored_snoc by done.
    destruct (stored (_indexList v) (_values v) j); [done|].
    by destruct (N.eqb_spec index j).
Qed.

(** X3.  Beyond the prefix everything is zero: when the largest stored
    index is below [SIZE_MAX], every index from [PrefixLength()] on holds
    [0.0]; and when the vector is not empty, the index just before
    [PrefixLength()] is a stored one. *)
Theorem PrefixLength_zero_suffix (v : Vec) :
  length (_indexList v) = length (_values v) ->
  Max (_indexList v) < SIZE_MAX ->
  (forall i, PrefixLength v <= i -> value_at v i = zero)
  /\ (_indexList v <> [] ->
      is_Some (stored (_indexList v) (_values v) (PrefixLength v - 1))).
Proof.
  intros Hlen Hmax. rewrite PrefixLength_unfold. split.
  - intros i Hi. unfold value_at. rewrite stored_absent; [done|].
    destruct (_indexList v) as [|j l] eqn:Hl; [constructor|].
    rewrite size_succ_small in Hi by done.
    eapply Forall_impl; [apply Max_upper|]. cbv beta. intros; lia.
  - intros Hne. destruct (_indexList v) as [|j l] eqn:Hl; [done|].
    rewrite size_succ_small by done.
    replace (Max (j :: l) + 1 - 1) with (Max (j :: l)) by lia.
    apply stored_member; [done|]. by apply Max_member.
Qed.

(** ** The iterator that skips zeros *)

Import SparseSkipZeros.

Lemma filter_beyond n ixs (vs : list E) :
  Forall (fun j => n <= j) ixs ->
  List.filter (fun p : N * E => p.1 <? n) (zip ixs vs) = [].
Proof.
  revert vs. induction ixs as [|j ixs IH]; intros vs Hall; [done|].
  destruct vs as [|e vs]; [done|]. apply Forall_cons in Hall as [Hj Hall].
  simpl. destruct (N.ltb_spec j n); [lia|]. by apply IH.
Qed.

Lemma filter_below n ixs (vs : list E) :
  Forall (fun j => j < n) ixs ->
  List.filter (fun p : N * E => p.1 <? n) (zip ixs vs) = zip ixs vs.
Proof.
  revert vs. induction ixs as [|j ixs IH]; intros vs Hall; [done|].
  destruct vs as [|e vs]; [done|]. apply Forall_cons in Hall as [Hj Hall].
  simpl. destruct (N.ltb_spec j n); [|lia]. f_equal. by apply IH.
Qed.

Lemma skipZeros_traverse ixs : forall (vs : list E) n fuel,
  increasing ixs -> length ixs = length vs -> (length ixs <= fuel)%nat ->
  (traverse fuel (mkSkipZerosIterator ixs vs n)).1
  = List.map iterate_of (List.filter (fun p : N * E => p.1 <? n) (zip ixs vs))
  /\ SparseSkipZeros.IsValid (traverse fuel (mkSkipZerosIterator ixs vs n)).2 = false.
Proof.
  induction ixs as [|j ixs IH]; intros vs n fuel Hinc Hlen Hfuel.
  - destruct fuel; simpl; unfold SparseSkipZeros.IsValid; simpl; split; reflexivity.
  - destruct vs as [|e vs]; [discriminate|].
    destruct fuel as [|fuel]; [simpl in Hfuel; lia|].
    apply increasing_inv in Hinc as [Hj Hinc].
    assert (Hvalid : SparseSkipZeros.IsValid (mkSkipZerosIterator (j :: ixs) (e :: vs) n)
                     = (j <? n)) by reflexivity.
    cbn [traverse]. rewrite Hvalid.
    destruct (N.ltb_spec j n) as [Hlt|Hge].
    + destruct (IH vs n fuel Hinc) as [Hout Hlast]; [simpl in Hlen; lia|simpl in Hfuel; lia|].
      unfold SparseSkipZeros.Next. cbn [_indexIterator _valueIterator _size index_Next tl].
      destruct (traverse fuel (mkSkipZerosIterator ixs vs n)) as [out last].
      cbn [fst snd] in *. split; [|exact Hlast].
      rewrite Hout. simpl. destruct (N.ltb_spec j n); [done|lia].
    + cbn [fst snd]. split; [|exact Hvalid].
      rewrite filter_beyond; [done|].
      constructor; [done|]. eapply Forall_impl; [exact Hj|]. cbv beta. intros; lia.
Qed.

(** X4.  The loop over the iterator of [GetIterator<skipZeros>(size)]
    yields exactly the stored elements whose index is below [size], in the
    order of their indices, each with its stored value; after them the
    iterator is no longer valid. *)
Theorem skipZeros_iterates (v : Vec) (size : N) (fuel : nat) :
  well_formed v -> (length (_indexList v) <= fuel)%nat ->
  (traverse fuel (GetIterator_skipZeros size v)).1
  = List.map iterate_of (List.filter (fun p : N * E => p.1 <? size) (elements v))
  /\ SparseSkipZeros.IsValid (traverse fuel (GetIterator_skipZeros size v)).2 = false.
Proof.
  intros [Hinc Hlen] Hfuel. by apply skipZeros_traverse.
Qed.

(** X5.  When the largest stored index is below [SIZE_MAX], the loop over
    the iterator of [GetIterator<skipZeros>()] yields every stored element,
    in order. *)
Theorem skipZeros_default_iterates (v : Vec) (fuel : nat) :
  well_formed v -> Max (_indexList v) < SIZE_MAX ->
  (length (_indexList v) <= fuel)%nat ->
  (traverse fuel (GetIterator_skipZeros_default v)).1 = List.map iterate_of (elements v).
Proof.
  intros [Hinc Hlen] Hmax Hfuel. unfold GetIterator_skipZeros_default.
  destruct (skipZeros_traverse (_indexList v) (_values v) (PrefixLength v) fuel)
    as [Hout _]; try done.
  unfold GetIterator_skipZeros. rewrite Hout. f_equal. apply filter_below.
  rewrite PrefixLength_unfold.
  destruct (_indexList v) as [|j l] eqn:Hl; [constructor|].
  rewrite size_succ_small by done.
  eapply Forall_impl; [apply Max_upper|]. cbv beta. intros; lia.
Qed.

(** X6.  When an element is stored at index [SIZE_MAX], [PrefixLength()]
    wraps around to 0 and the iterators of [GetIterator<policy>()] yield
    nothing, for both policies. *)
Theorem default_iterators_at_SIZE_MAX (v : Vec) (fuel : nat) :
  _indexList v <> [] -> Max (_indexList v) = SIZE_MAX ->
  PrefixLength v = 0
  /\ (traverse fuel (GetIterator_skipZeros_default v)).1 = []
  /\ (Data.traverse fuel (GetIterator_all_default v)).1 = [].
Proof.
  intros Hne Hmax.
  assert (Hzero : PrefixLength v = 0).
  { rewrite PrefixLength_unfold. destruct (_indexList v); [done|].
    by rewrite Hmax. }
  split; [done|].
  unfold GetIterator_skipZeros_default, GetIterator_all_default. rewrite Hzero.
  split; destruct fuel; simpl; try done.
  - unfold SparseSkipZeros.IsValid. simpl.
    by rewrite N.ltb_irrefl || (destruct (index_Get (_indexList v)); by rewrite andb_false_r).
Qed.

(** ** Rebuilding a vector from its iterates *)

Section Lossless.

(** The element type holds every [double] ([ElementType = double]). *)
Hypothesis to_double_to_element : forall x : D, to_double (to_element x) = x.

Lemma AppendElement_appendable i x (v : Vec) :
  Forall appendable (_values v) ->
  Forall appendable (_values (vector_of (AppendElement i x v))).
Proof.
  intros Hall. unfold AppendElement.
  destruct (is_zero x) eqn:Hz; [done|].
  destruct (within_tolerance _ _) eqn:Ht; simpl; [|done].
  destruct ((0 <? Size (_indexList v)) && (i <=? Max (_indexList v))); simpl; [done|].
  apply Forall_app. split; [done|]. constructor; [|constructor].
  unfold appendable. by rewrite to_double_to_element.
Qed.

Lemma appends_appendable ops (v : Vec) :
  Forall appendable (_values v) -> Forall appendable (_values (appends ops v)).
Proof.
  revert v. induction ops as [|[i x] ops IH]; intros v Hall; simpl; [done|].
  apply IH. by apply AppendElement_appendable.
Qed.

Lemma appends_elements ixs : forall (vs : list E) (v : Vec),
  increasing ixs -> length ixs = length vs ->
  _indexList v = [] \/ Forall (fun i => Max (_indexList v) < i) ixs ->
  Forall appendable vs ->
  appends (List.map (fun p : N * E => (p.1, to_double p.2)) (zip ixs vs)) v
  = mkSparse (_indexList v ++ ixs) (_values v ++ vs).
Proof.
  induction ixs as [|j ixs IH]; intros vs v Hinc Hlen Hbeyond Hall.
  - destruct vs; [|discriminate]. simpl. rewrite !app_nil_r. by destruct v.
  - destruct vs as [|e vs]; [discriminate|].
    apply increasing_inv in Hinc as [Hj Hinc].
    apply Forall_cons in Hall as [(Hnz & Htol & Hback) Hall].
    cbn [zip zip_with List.map appends fold_left fst snd].
    rewrite (AppendElement_beyond j (to_double e) v Hnz Htol).
    2:{ destruct Hbeyond as [Hnil|Hlt]; [by left|right].
        by apply Forall_cons in Hlt as [Hlt _]. }
    cbn [vector_of].
    change (fold_left _ ?l ?w) with (appends l w).
    rewrite IH; try done.
    + cbn [_indexList _values]. rewrite Hback. by rewrite <- !app_assoc.
    + simpl in Hlen. lia.
    + right. cbn [_indexList].
      assert (Hmax : Max (_indexList v ++ [j]) = j).
      { change (_indexList v ++ [j]) with (Append j (_indexList v)).
        rewrite Max_Append. destruct Hbeyond as [->|Hlt]; [simpl; lia|].
        apply Forall_cons in Hlt as [Hlt _]. lia. }
      rewrite Hmax. exact Hj.
Qed.

(** X7.  For an element type that holds every [double], appending the
    iterates of [GetIterator<skipZeros>(size)] to an empty vector, one
    [AppendElement] call per iterate, rebuilds the vector, provided [size]
    lies beyond every stored index. *)
Theorem skipZeros_rebuilds (ops : list (N * D)) (size : N) (fuel : nat) :
  let v : Vec := appends ops empty in
  Forall (fun i => i < size) (_indexList v) ->
  (length (_indexList v) <= fuel)%nat ->
  appends (List.map append_of (traverse fuel (GetIterator_skipZeros size v)).1) empty = v.
Proof.
  intros v Hsize Hfuel.
  assert (Hwf : well_formed v) by apply appends_well_formed, well_formed_empty.
  destruct (skipZeros_traverse (_indexList v) (_values v) size fuel) as [Hout _];
    [apply Hwf | apply Hwf | done |].
  unfold GetIterator_skipZeros. rewrite Hout, filter_below by done.
  rewrite List.map_map.
  change (fun x : N * E => append_of (iterate_of x))
    with (fun p : N * E => (p.1, to_double p.2)).
  rewrite (appends_elements (_indexList v) (_values v) empty).
  - simpl. by destruct v.
  - apply Hwf.
  - apply Hwf.
  - by left.
  - apply appends_appendable. constructor.
Qed.

End Lossless.

(** ** The two policies against each other *)

Lemma restrict_range (ixs0 : list N) (vs0 : list E) c :
  forall k ixs (vs : list E),
  increasing ixs -> length ixs = length vs -> Forall (fun j => k <= j) ixs ->
  (forall i, k <= i -> stored ixs0 vs0 i = stored ixs vs i) ->
  List.filter (fun iv : IndexValue D => bool_decide (is_Some (stored ixs0 vs0 (index iv))))
    (List.map (iterate_at ixs0 vs0) (range k c))
  = List.map iterate_of
      (List.filter (fun p : N * E => p.1 <? k + N.of_nat c) (zip ixs vs)).
Proof.
  induction c as [|c IH]; intros k ixs vs Hinc Hlen Hlow Hsame.
  - simpl. rewrite filter_beyond; [done|].
    eapply Forall_impl; [exact Hlow|]. cbv beta. intros; lia.
  - cbn [range List.map List.filter index iterate_at].
    rewrite (Hsame k) by lia.
    replace (k + N.of_nat (S c)) with (k + 1 + N.of_nat c) by lia.
    destruct ixs as [|j ixs].
    + simpl. rewrite (IH (k + 1) [] vs); try done.
      intros i Hi. apply Hsame. lia.
    + destruct vs as [|e vs]; [discriminate|].
      apply increasing_inv in Hinc as [Hj Hinc].
      apply Forall_cons in Hlow as [Hkj Hlow].
      cbn [stored zip zip_with List.filter fst].
      destruct (N.eqb_spec j k) as [->|Hne].
      * rewrite bool_decide_eq_true_2 by (by eexists).
        destruct (N.ltb_spec k (k + 1 + N.of_nat c)); [|lia].
        cbn [List.map]. f_equal.
        { unfold iterate_at, iterate_of. rewrite (Hsame k) by lia. simpl.
          by rewrite N.eqb_refl. }
        apply (IH (k + 1) ixs vs); try done.
        -- simpl in Hlen. lia.
        -- eapply Forall_impl; [exact Hj|]. cbv beta. intros; lia.
        -- intros i Hi. rewrite Hsame by lia. simpl.
           destruct (N.eqb_spec k i); [lia|done].
      * rewrite (stored_beyond ixs vs k)
          by (eapply Forall_impl; [exact Hj|]; cbv beta; intros; lia).
        rewrite bool_decide_eq_false_2 by (by intros [? ?]).
        rewrite (IH (k + 1) (j :: ixs) (e :: vs)); try done.
        -- by constructor.
        -- constructor; [lia|].
           eapply Forall_impl; [exact Hj|]. cbv beta. intros; lia.
        -- intros i Hi. apply Hsame. lia.
Qed.

(** X8.  The two policies agree on what is stored: of the iterates of
    [GetIterator<all>(size)], those at a stored index are exactly the
    iterates of [GetIterator<skipZeros>(size)], in the same order. *)
Theorem all_restricts_to_skipZeros (v : Vec) (size : N) (fuel fuel' : nat) :
  well_formed v -> size < 2 ^ 64 ->
  (N.to_nat size <= fuel)%nat -> (length (_indexList v) <= fuel')%nat ->
  List.filter
    (fun iv : IndexValue D =>
       bool_decide (is_Some (stored (_indexList v) (_values v) (index iv))))
    (Data.traverse fuel (GetIterator_all size v)).1
  = (traverse fuel' (GetIterator_skipZeros size v)).1.
Proof.
  intros [Hinc Hlen] Hsize Hfuel Hfuel'.
  pose proof (make_AllIterator_iterating (_indexList v) (_values v) size Hinc Hlen) as Hit.
  destruct (traverse_iterating fuel 0 (GetIterator_all size v) Hit) as [Hall _];
    [simpl; lia | done | simpl; by rewrite N.sub_0_r |].
  destruct (skipZeros_traverse (_indexList v) (_values v) size fuel') as [Hskip _];
    try done.
  unfold GetIterator_skipZeros. rewrite Hskip, Hall. simpl.
  rewrite N.sub_0_r.
  rewrite (restrict_range _ _ _ 0 (_indexList v) (_values v)); try done.
  - by rewrite N.add_0_l, N2Nat.id.
  - apply Forall_forall. intros; lia.
Qed.

End Vector.

(** ** Concrete vectors *)

(** A [SparseShortDataVector] holding 5 and 2 at the indices 1 and 4. *)
Lemma sample_well_formed :
  well_formed (mkSparse [1; 4] [5%Z; 2%Z] : SparseDataVector Z).
Proof.
  split; [|reflexivity].
  constructor; [repeat constructor | repeat constructor].
Qed.

Lemma AppendElement_invariant_witness :
  let v : SparseDataVector Z := mkSparse [1; 4] [5%Z; 2%Z] in
  well_formed (vector_of (AppendElement 6 (finite 3) v))
  /\ well_formed (vector_of (AppendElement 2 (finite 3) v)).
Proof.
  intros v. split.
  - exact (proj1 (AppendElement_invariant 6 (finite 3) v sample_well_formed)).
  - exact (proj1 (AppendElement_invariant 2 (finite 3) v sample_well_formed)).
Defined.

Lemma AppendElement_value_at_witness :
  let v : SparseDataVector Z := mkSparse [1; 4] [5%Z; 2%Z] in
  let v' : SparseDataVector Z := mkSparse [1; 4; 6] [5%Z; 2%Z; 3%Z] in
  value_at v' 6 = finite 3 /\ value_at v' 4 = value_at v 4.
Proof.
  intros v v'.
  destruct (AppendElement_value_at 6 (finite 3) v v') as [Hnew Hold];
    [exact sample_well_formed | reflexivity | reflexivity |].
  split; [exact Hnew|]. apply Hold. discriminate.
Defined.

Lemma PrefixLength_zero_suffix_witness :
  let v : SparseDataVector Z := mkSparse [1; 4] [5%Z; 2%Z] in
  PrefixLength v = 5 /\ value_at v 5 = finite 0 /\ value_at v 9 = finite 0
  /\ is_Some (stored (_indexList v) (_values v) 4).
Proof.
  intros v.
  destruct (PrefixLength_zero_suffix v) as [Hzero Hlast];
    [reflexivity | reflexivity |].
  split; [reflexivity|].
  split; [apply Hzero; vm_compute; discriminate|].
  split; [apply Hzero; vm_compute; discriminate|].
  apply Hlast. discriminate.
Defined.

Lemma skipZeros_iterates_witness :
  let v : SparseDataVector Z := mkSparse [1; 4] [5%Z; 2%Z] in
  (SparseSkipZeros.traverse 2 (SparseSkipZeros.GetIterator_skipZeros 3 v)).1
  = [mkIndexValue 1 (finite (inject_Z 5))].
Proof.
  intros v.
  exact (proj1 (skipZeros_iterates v 3 2%nat sample_well_formed (le_n 2))).
Defined.

Lemma skipZeros_default_iterates_witness :
  let v : SparseDataVector Z := mkSparse [1; 4] [5%Z; 2%Z] in
  (SparseSkipZeros.traverse 2 (SparseSkipZeros.GetIterator_skipZeros_default v)).1
  = [mkIndexValue 1 (finite (inject_Z 5)); mkIndexValue 4 (finite (inject_Z 2))].
Proof.
  intros v.
  exact (skipZeros_default_iterates v 2%nat sample_well_formed eq_refl (le_n 2)).
Defined.

Lemma default_iterators_at_SIZE_MAX_witness :
  let v : SparseDataVector Z := mkSparse [1; SIZE_MAX] [5%Z; 2%Z] in
  PrefixLength v = 0
  /\ (SparseSkipZeros.traverse 2 (SparseSkipZeros.GetIterator_skipZeros_default v)).1 = []
  /\ (Data.traverse 2 (SparseSkipZeros.GetIterator_all_default v)).1 = [].
Proof.
  intros v. apply (default_iterators_at_SIZE_MAX v 2%nat); [discriminate|reflexivity].
Defined.

(** A [SparseDoubleDataVector]: the conversion is the identity; the
    infinity is refused by the assertion and never stored. *)
Lemma skipZeros_rebuilds_witness :
  let v : SparseDataVector double :=
    appends [(1, finite 5); (2, finite 0); (3, infinite false); (4, finite 2)] empty in
  _indexList v = [1; 4]
  /\ appends
       (List.map SparseSkipZeros.append_of
          (SparseSkipZeros.traverse 2 (SparseSkipZeros.GetIterator_skipZeros 5 v)).1)
       empty
     = v.
Proof.
  intros v. split; [reflexivity|].
  apply (@skipZeros_rebuilds double double double_element (fun x => eq_refl)
           [(1, finite 5); (2, finite 0); (3, infinite false); (4, finite 2)] 5 2%nat).
  - repeat constructor.
  - simpl. lia.
Defined.

Lemma all_restricts_to_skipZeros_witness :
  let v : SparseDataVector Z := mkSparse [1; 4] [5%Z; 2%Z] in
  List.filter
    (fun iv : IndexValue double =>
       bool_decide (is_Some (stored (_indexList v) (_values v) (index iv))))
    (Data.traverse 6 (GetIterator_all 6 v)).1
  = [mkIndexValue 1 (finite (inject_Z 5)); mkIndexValue 4 (finite (inject_Z 2))].
Proof.
  intros v.
  exact (all_restricts_to_skipZeros v 6 6%nat 2%nat sample_well_formed eq_refl
           (le_n 6) (le_n 2)).
Defined.

End SparseVectorTheory.

(** * Properties of the iterators over STL containers *)

Module StlTheory.
Import Data DataTheory Stl.

Section Iterators.

Context {D E : Type} `{ElementCast D E} `{ZeroTest E}.

Lemma before_app_cons (e : E) l r : before ((e :: l) ++ r) r = true.
Proof.
  unfold before. apply Nat.ltb_lt. simpl. rewrite length_app. lia.
Qed.

Lemma before_same (r : list E) : before r r = false.
Proof. unfold before. apply Nat.ltb_ge. lia. Qed.

Lemma differs_app_cons (e : E) l r : differs ((e :: l) ++ r) r = true.
Proof.
  unfold differs. apply negb_true_iff, Nat.eqb_neq. simpl. rewrite length_app. lia.
Qed.

Lemma differs_same (r : list E) : differs r r = false.
Proof. unfold differs. by rewrite Nat.eqb_refl. Qed.

(** ** The [all] policy *)

Lemma element_at_cons (e : E) l i :
  0 < i -> element_at (e :: l) i = element_at l (i - 1).
Proof.
  intros Hi. unfold element_at.
  replace (N.to_nat i) with (S (N.to_nat (i - 1))) by lia. done.
Qed.

Lemma all_traverse fuel : forall (l r : list E) n k,
  k <= n -> n < 2 ^ 64 -> (N.to_nat (n - k) <= fuel)%nat ->
  (All.traverse fuel (All.mkIterator (l ++ r) r n k)).1
  = List.map (fun i => mkIndexValue i (element_at l (i - k)))
      (range k (N.to_nat (n - k)))
  /\ All.IsValid (All.traverse fuel (All.mkIterator (l ++ r) r n k)).2 = false.
Proof.
  induction fuel as [|fuel IH]; intros l r n k Hk Hn Hfuel.
  - assert (Hend : n - k = 0) by lia. rewrite Hend. simpl.
    split; [done|]. unfold All.IsValid. simpl. apply N.ltb_ge. lia.
  - cbn [All.traverse].
    assert (Hvalid : All.IsValid (All.mkIterator (l ++ r) r n k) = (k <? n)) by reflexivity.
    rewrite Hvalid. destruct (N.ltb_spec k n) as [Hlt|Hge].
    + assert (Hsucc : size_succ k = k + 1)
        by (apply size_succ_small; unfold SIZE_MAX; lia).
      replace (N.to_nat (n - k)) with (S (N.to_nat (n - (k + 1)))) by lia.
      cbn [range List.map].
      destruct l as [|e l].
      * assert (Hnext : All.Next (All.mkIterator ([] ++ r) r n k)
                        = All.mkIterator ([] ++ r) r n (k + 1)).
        { unfold All.Next. cbn [All._current All._end All._size All._index app].
          by rewrite before_same, Hsucc. }
        rewrite Hnext.
        destruct (IH [] r n (k + 1)) as [Hout Hlast]; [lia|done|lia|].
        destruct (All.traverse fuel (All.mkIterator ([] ++ r) r n (k + 1))) as [out last].
        cbn [fst snd] in *. split; [|done]. f_equal.
        -- unfold All.Get. cbn [All._current All._end All._index app].
           by rewrite before_same.
        -- rewrite Hout. apply map_ext. intros i. done.
      * assert (Hnext : All.Next (All.mkIterator ((e :: l) ++ r) r n k)
                        = All.mkIterator (l ++ r) r n (k + 1)).
        { unfold All.Next. cbn [All._current All._end All._size All._index].
          by rewrite before_app_cons, Hsucc. }
        rewrite Hnext.
        destruct (IH l r n (k + 1)) as [Hout Hlast]; [lia|done|lia|].
        destruct (All.traverse fuel (All.mkIterator (l ++ r) r n (k + 1))) as [out last].
        cbn [fst snd] in *. split; [|done]. f_equal.
        -- unfold All.Get. cbn [All._current All._end All._index].
           rewrite before_app_cons. simpl. unfold element_at.
           by rewrite N.sub_diag.
        -- rewrite Hout. apply map_ext_in. intros i Hi.
           pose proof (range_lower (k + 1) (N.to_nat (n - (k + 1)))) as Hlow.
           rewrite Forall_forall in Hlow. apply list_elem_of_In in Hi.
           specialize (Hlow i Hi). cbv beta in Hlow. f_equal.
           rewrite element_at_cons by lia. f_equal. lia.
    + assert (Hend : n - k = 0) by lia. rewrite Hend. cbn [fst snd N.to_nat range List.map].
      split; [done|]. exact Hvalid.
Qed.

(** X9.  The loop over the [all] iterator of a range with [size] iterates
    asked for yields exactly [size] iterates, for the indices
    [0, ..., size - 1] in order: the element of the range at that position,
    and [0.0] from the end of the range on; after them the iterator is no
    longer valid. *)
Theorem Stl_all_iterates (l rest : list E) (size : N) (fuel : nat) :
  size < 2 ^ 64 -> (N.to_nat size <= fuel)%nat ->
  (All.traverse fuel (All.make (l ++ rest) rest size)).1
  = List.map (fun i => mkIndexValue i (element_at l i))
      (List.map N.of_nat (seq 0 (N.to_nat size)))
  /\ length (All.traverse fuel (All.make (l ++ rest) rest size)).1 = N.to_nat size
  /\ All.IsValid (All.traverse fuel (All.make (l ++ rest) rest size)).2 = false.
Proof.
  intros Hsize Hfuel. unfold All.make.
  destruct (all_traverse fuel l rest size 0) as [Hout Hlast];
    [lia | done | by rewrite N.sub_0_r |].
  rewrite N.sub_0_r, range_seq in Hout.
  rewrite Hout. split; [|split; [|done]].
  - apply map_ext. intros i. by rewrite N.sub_0_r.
  - by rewrite !length_map, length_seq.
Qed.

(** ** The [skipZeros] policy *)

Lemma skip_end (r : list E) k : SkipZeros.skip r r k = (r, k).
Proof. destruct r; simpl; [done|]. by rewrite before_same. Qed.

Lemma skip_cons (e : E) l r k :
  SkipZeros.skip ((e :: l) ++ r) r k
  = if element_is_zero e then SkipZeros.skip (l ++ r) r (size_succ k)
    else ((e :: l) ++ r, k).
Proof.
  change (SkipZeros.skip ((e :: l) ++ r) r k)
    with (if before ((e :: l) ++ r) r && element_is_zero e
          then SkipZeros.skip (l ++ r) r (size_succ k)
          else ((e :: l) ++ r, k)).
  by rewrite before_app_cons.
Qed.

Lemma filter_enumerate_beyond n k (l : list E) :
  n <= k ->
  List.filter (fun p : N * E => nonzero p && within n p) (enumerate k l) = [].
Proof.
  revert k. induction l as [|e l IH]; intros k Hk; simpl; [done|].
  unfold within at 1. simpl. destruct (N.ltb_spec k n); [lia|].
  rewrite andb_false_r. apply IH. lia.
Qed.

Lemma Stl_skipZeros_traverse (l : list E) : forall r n k fuel,
  k + N.of_nat (length l) < 2 ^ 64 -> (length l <= fuel)%nat ->
  (SkipZeros.traverse fuel (SkipZeros.SkipZeros (SkipZeros.mkIterator (l ++ r) r n k))).1
  = List.map SparseSkipZeros.iterate_of
      (List.filter (fun p : N * E => nonzero p && within n p) (enumerate k l))
  /\ SkipZeros.IsValid
       (SkipZeros.traverse fuel
          (SkipZeros.SkipZeros (SkipZeros.mkIterator (l ++ r) r n k))).2 = false.
Proof.
  induction l as [|e l IH]; intros r n k fuel Hk Hfuel.
  - unfold SkipZeros.SkipZeros. cbn [SkipZeros._current SkipZeros._end SkipZeros._index app].
    rewrite skip_end. cbn [SkipZeros._size enumerate List.filter List.map].
    assert (Hvalid : SkipZeros.IsValid (SkipZeros.mkIterator r r n k) = false).
    { unfold SkipZeros.IsValid. cbn [SkipZeros._current SkipZeros._end].
      by rewrite differs_same. }
    destruct fuel; cbn [SkipZeros.traverse]; rewrite ?Hvalid; done.
  - assert (Hsucc : size_succ k = k + 1).
    { apply size_succ_small. unfold SIZE_MAX. simpl in Hk. lia. }
    assert (Hskip : SkipZeros.SkipZeros (SkipZeros.mkIterator ((e :: l) ++ r) r n k)
                    = if element_is_zero e
                      then SkipZeros.SkipZeros (SkipZeros.mkIterator (l ++ r) r n (k + 1))
                      else SkipZeros.mkIterator ((e :: l) ++ r) r n k).
    { unfold SkipZeros.SkipZeros.
      cbn [SkipZeros._current SkipZeros._end SkipZeros._index SkipZeros._size].
      rewrite skip_cons, Hsucc. by destruct (element_is_zero e). }
    rewrite Hskip. cbn [enumerate List.filter].
    unfold nonzero at 1. cbn [snd].
    destruct (element_is_zero e) eqn:Hzero; cbn [negb andb].
    + apply IH; simpl in Hk, Hfuel; lia.
    + destruct fuel as [|fuel]; [simpl in Hfuel; lia|].
      cbn [SkipZeros.traverse].
      assert (Hvalid : SkipZeros.IsValid (SkipZeros.mkIterator ((e :: l) ++ r) r n k)
                       = (k <? n)).
      { unfold SkipZeros.IsValid. cbn [SkipZeros._current SkipZeros._end SkipZeros._index
                                         SkipZeros._size].
        by rewrite differs_app_cons. }
      rewrite Hvalid. unfold within at 1. cbn [fst].
      destruct (N.ltb_spec k n) as [Hlt|Hge].
      * assert (Hnext : SkipZeros.Next (SkipZeros.mkIterator ((e :: l) ++ r) r n k)
                        = SkipZeros.SkipZeros (SkipZeros.mkIterator (l ++ r) r n (k + 1))).
        { unfold SkipZeros.Next.
          cbn [SkipZeros._current SkipZeros._end SkipZeros._index SkipZeros._size app tl].
          by rewrite Hsucc. }
        rewrite Hnext.
        destruct (IH r n (k + 1) fuel) as [Hout Hlast]; [simpl in Hk; lia|simpl in Hfuel; lia|].
        destruct (SkipZeros.traverse fuel
                    (SkipZeros.SkipZeros (SkipZeros.mkIterator (l ++ r) r n (k + 1))))
          as [out last].
        cbn [fst snd] in *. split; [|done]. cbn [List.map]. by rewrite Hout.
      * cbn [fst snd]. rewrite filter_enumerate_beyond by lia.
        split; [done|exact Hvalid].
Qed.

(** X10.  The loop over the [skipZeros] iterator of a range yields exactly
    the elements of the range that are not zero and stand at a position
    below [size], each with its position, in order; after them the
    iterator is no longer valid. *)
Theorem Stl_skipZeros_iterates (l rest : list E) (size : N) (fuel : nat) :
  N.of_nat (length l) < 2 ^ 64 -> (length l <= fuel)%nat ->
  (SkipZeros.traverse fuel (SkipZeros.make (l ++ rest) rest size)).1
  = List.map SparseSkipZeros.iterate_of
      (List.filter (fun p : N * E => nonzero p && within size p) (enumerate 0 l))
  /\ SkipZeros.IsValid
       (SkipZeros.traverse fuel (SkipZeros.make (l ++ rest) rest size)).2 = false.
Proof.
  intros Hlen Hfuel. unfold SkipZeros.make. by apply Stl_skipZeros_traverse.
Qed.

(** ** [MakeVectorIndexValueIterator] *)

Lemma enumerate_elements (l : list E) : forall k,
  List.map (fun i => mkIndexValue i (element_at l (i - k))) (range k (length l))
  = List.map SparseSkipZeros.iterate_of (enumerate k l).
Proof.
  induction l as [|e l IH]; intros k; [done|].
  cbn [length range enumerate List.map]. f_equal.
  - unfold SparseSkipZeros.iterate_of, element_at. by rewrite N.sub_diag.
  - rewrite <- IH. apply map_ext_in. intros i Hi.
    pose proof (range_lower (k + 1) (length l)) as Hlow.
    rewrite Forall_forall in Hlow. apply list_elem_of_In in Hi.
    specialize (Hlow i Hi). cbv beta in Hlow.
    rewrite element_at_cons by lia. do 2 f_equal. lia.
Qed.

Lemma filter_enumerate_within (l : list E) : forall k n,
  k + N.of_nat (length l) <= n ->
  List.filter (fun p : N * E => nonzero p && within n p) (enumerate k l)
  = List.filter nonzero (enumerate k l).
Proof.
  induction l as [|e l IH]; intros k n Hn; [done|].
  cbn [enumerate List.filter]. unfold within at 1. cbn [fst].
  simpl in Hn. destruct (N.ltb_spec k n); [|lia]. rewrite andb_true_r.
  rewrite IH by lia. done.
Qed.

(** X11.  For a vector, the iterator of
    [MakeVectorIndexValueIterator<all>(vector)] yields every element with
    its position, and the iterator of
    [MakeVectorIndexValueIterator<skipZeros>(vector)] yields, of these, the
    ones whose element is not zero. *)
Theorem MakeVectorIndexValueIterator_iterates (vector : list E) (fuel : nat) :
  N.of_nat (length vector) < 2 ^ 64 -> (length vector <= fuel)%nat ->
  (All.traverse fuel (All.MakeVectorIndexValueIterator vector)).1
  = List.map SparseSkipZeros.iterate_of (enumerate 0 vector)
  /\ (SkipZeros.traverse fuel (SkipZeros.MakeVectorIndexValueIterator vector)).1
     = List.map SparseSkipZeros.iterate_of (List.filter nonzero (enumerate 0 vector)).
Proof.
  intros Hlen Hfuel. split.
  - unfold All.MakeVectorIndexValueIterator, All.make, cbegin, cend.
    destruct (all_traverse fuel vector [] (N.of_nat (length vector)) 0) as [Hout _];
      [lia | done | lia |].
    rewrite app_nil_r in Hout. rewrite Hout, N.sub_0_r, Nat2N.id.
    apply enumerate_elements.
  - unfold SkipZeros.MakeVectorIndexValueIterator, SkipZeros.make, cbegin, cend.
    destruct (Stl_skipZeros_traverse vector [] (N.of_nat (length vector)) 0 fuel)
      as [Hout _]; [lia | done |].
    rewrite app_nil_r in Hout. rewrite Hout. f_equal.
    apply filter_enumerate_within. lia.
Qed.

End Iterators.

(** ** Concrete ranges *)

Lemma Stl_all_iterates_witness :
  (All.traverse 4 (All.make (cbegin [3%Z; 0%Z]) (cend [3%Z; 0%Z]) 4)).1
  = [mkIndexValue 0 (finite (inject_Z 3)); mkIndexValue 1 (finite (inject_Z 0));
     mkIndexValue 2 (finite 0); mkIndexValue 3 (finite 0)].
Proof.
  exact (proj1 (Stl_all_iterates [3%Z; 0%Z] [] 4 4%nat eq_refl (le_n 4))).
Defined.

Lemma Stl_skipZeros_iterates_witness :
  (SkipZeros.traverse 4
     (SkipZeros.make (cbegin [0%Z; 3%Z; 0%Z; 7%Z]) (cend [0%Z; 3%Z; 0%Z; 7%Z]) 3)).1
  = [mkIndexValue 1 (finite (inject_Z 3))].
Proof.
  exact (proj1 (Stl_skipZeros_iterates [0%Z; 3%Z; 0%Z; 7%Z] [] 3 4%nat eq_refl (le_n 4))).
Defined.

Lemma MakeVectorIndexValueIterator_iterates_witness :
  (All.traverse 4 (All.MakeVectorIndexValueIterator [0%Z; 3%Z; 0%Z; 7%Z])).1
  = [mkIndexValue 0 (finite (inject_Z 0)); mkIndexValue 1 (finite (inject_Z 3));
     mkIndexValue 2 (finite (inject_Z 0)); mkIndexValue 3 (finite (inject_Z 7))]
  /\ (SkipZeros.traverse 4 (SkipZeros.MakeVectorIndexValueIterator [0%Z; 3%Z; 0%Z; 7%Z])).1
     = [mkIndexValue 1 (finite (inject_Z 3)); mkIndexValue 3 (finite (inject_Z 7))].
Proof.
  exact (MakeVectorIndexValueIterator_iterates [0%Z; 3%Z; 0%Z; 7%Z] 4%nat eq_refl (le_n 4)).
Defined.

End StlTheory.
